(** * Response-finish interception and the TS 3.8 tsconfig rewrite

    A shallow embedding of

    - [packages/nextjs/src/config/wrappers/utils/responseEnd.ts]
      ([autoEndTransactionOnResponseEnd], [finishTransaction], [flushQueue]);
    - [dev-packages/node-integration-tests/scripts/use-ts-3_8.js].

    The TypeScript functions run on Node's event loop.  The loop is modelled
    as a record of FIFO queues, closures are defunctionalised into a [Task]
    type, and every externally visible effect is appended to a trace. *)

From Stdlib Require Import ZArith List String Bool Lia.
From stdpp Require Import base list strings gmap.
Import ListNotations.

#[local] Set Warnings "-notation-for-abbreviation,-register-all".

Local Open Scope Z_scope.
Local Open Scope string_scope.
Local Open Scope list_scope.

Module ResponseEnd.

(** ** JavaScript values, as far as the module handles them *)

(** Arguments of [res.end], results, thrown values, values a promise settles
    with.  The module treats all of them opaquely. *)
Inductive Value :=
| VUndefined
| VBoolean (b : bool)
| VNumber (z : Z)
| VString (s : string).

(** Result of calling a synchronous function. *)
Inductive Outcome :=
| Returned (v : Value)
| Threw (e : Value).

(** A settled promise is fulfilled with a value or rejected with a reason. *)
Inductive Settlement :=
| Fulfilled (v : Value)
| Rejected (e : Value).

(** The tracing handle ([Transaction] of [@sentry/types]) is opaque: the
    module only holds a reference to it and calls [setHttpStatus] and
    [finish] on it.  A handle is represented by its identity. *)
Definition Transaction := nat.

Definition PromiseId := nat.

(** Continuations of the two async functions at their [await]. *)
Inductive Cont :=
| KFinishTransaction (ret : PromiseId)  (* after [await transactionFinished] *)
| KFlushQueue (ret : PromiseId).        (* after [await flush(2000)], inside [try] *)

(** Callbacks that sit in the queues of the event loop. *)
Inductive Task :=
| TMarker (n : nat)
    (* a callback of the surrounding program; running it is observed as
       [EvMarker n] *)
| TFinishImmediate (transaction : Transaction) (resolve : PromiseId)
    (* the arrow function [() => { transaction.finish(); resolve(); }] *)
| TResume (k : Cont) (o : Settlement)
    (* promise reaction job: resume an async function after its [await] *)
| TSettle (p : PromiseId) (o : Settlement).
    (* the flush capability settling the promise it returned *)

Inductive PState :=
| Pending (reactions : list Cont)
| Settled (o : Settlement).

(** Everything an observer can see, in the order it happens. *)
Inductive Event :=
| EvSetHttpStatus (transaction : Transaction) (code : Z)
    (* [transaction.setHttpStatus(code)] *)
| EvFinish (transaction : Transaction)
    (* [transaction.finish()] called and returned *)
| EvOrigEnd (f : nat) (statusCode : Z) (args : list Value)
    (* the native [end] number [f] called on a response with these arguments *)
| EvFlush (timeout : Z)
    (* [flush(timeout)] of [@sentry/node] *)
| EvLog (args : list Value)
    (* [logger.log(...args)] *)
| EvMarker (n : nat)
| EvSettled (p : PromiseId) (o : Settlement).
    (* instrumentation: promise [p] left the pending state *)

(** ** The event loop

    [microtasks]: promise jobs, drained before any other callback.
    [poll]: callbacks of the phase that is currently running (I/O callbacks
    that are already queued).  [immediates]: the check phase, filled by
    [setImmediate].  [later]: callbacks that only become ready in a later
    iteration of the loop (future I/O and timers).  This is the loop as a
    request handler sees it, which runs in a callback of the poll phase: the
    rest of that phase comes first, then the check phase, then the next
    iteration. *)
Record Loop := mkLoop {
  trace : list Event;
  promises : list PState;
  microtasks : list Task;
  poll : list Task;
  immediates : list Task;
  later : list Task
}.

Definition emit (e : Event) (s : Loop) : Loop :=
  mkLoop (trace s ++ [e]) (promises s) (microtasks s) (poll s)
         (immediates s) (later s).

Definition new_promise (st : PState) (s : Loop) : PromiseId * Loop :=
  (length (promises s),
   mkLoop (trace s) (promises s ++ [st]) (microtasks s) (poll s)
          (immediates s) (later s)).

Definition queueMicrotasks (ts : list Task) (s : Loop) : Loop :=
  mkLoop (trace s) (promises s) (microtasks s ++ ts) (poll s)
         (immediates s) (later s).

Definition setImmediate (t : Task) (s : Loop) : Loop :=
  mkLoop (trace s) (promises s) (microtasks s) (poll s)
         (immediates s ++ [t]) (later s).

Definition scheduleLater (t : Task) (s : Loop) : Loop :=
  mkLoop (trace s) (promises s) (microtasks s) (poll s)
         (immediates s) (later s ++ [t]).

Definition set_promise (p : PromiseId) (st : PState) (s : Loop) : Loop :=
  mkLoop (trace s) (<[p := st]> (promises s)) (microtasks s) (poll s)
         (immediates s) (later s).

(** Settling a pending promise queues one reaction job per registered
    continuation; settling twice has no effect. *)
Definition settle (p : PromiseId) (o : Settlement) (s : Loop) : Loop :=
  match promises s !! p with
  | Some (Pending ks) =>
      queueMicrotasks (map (fun k => TResume k o) ks)
        (emit (EvSettled p o) (set_promise p (Settled o) s))
  | _ => s
  end.

(** [await p] with continuation [k]: register on a pending promise, queue the
    reaction job at once on a settled one. *)
Definition await (p : PromiseId) (k : Cont) (s : Loop) : Loop :=
  match promises s !! p with
  | Some (Pending ks) => set_promise p (Pending (ks ++ [k])) s
  | Some (Settled o) => queueMicrotasks [TResume k o] s
  | None => s
  end.

(** ** The external capabilities *)

(** What [flush(timeout)] can do: throw, hand back a promise that is already
    settled, hand back a pending promise that the transport settles in a
    later loop iteration, or hand back a promise that is never settled.
    [flushQueue] has no timer of its own: whether the timeout budget is kept
    is up to the capability. *)
Inductive FlushBehaviour :=
| FlushThrows (e : Value)
| FlushSettled (o : Settlement)
| FlushLater (o : Settlement)
| FlushNever.

(** The response object of [http]: the status code and the [end] method.
    A function that can sit in [res.end] is either one this module did not
    create, or the closure [sentryWrappedEnd] built by [wrapEndMethod].
    [marked] says whether the function object carries a truthy
    [__sentry_original__] property (its value, when set, is a function). *)
Inductive EndMethod :=
| NativeEnd (f : nat) (marked : bool)
| sentryWrappedEnd (transaction : option Transaction) (origEnd : EndMethod)
                   (marked : bool).

Record ServerResponse := mkResponse {
  statusCode : Z;
  end_ : EndMethod
}.

(** [(res.end as WrappedResponseEndMethod).__sentry_original__], as the
    truth value the guard tests. *)
Definition __sentry_original__ (f : EndMethod) : bool :=
  match f with
  | NativeEnd _ marked => marked
  | sentryWrappedEnd _ _ marked => marked
  end.

Section Capabilities.

(** [__DEBUG_BUILD__], a build-time constant. *)
Variable __DEBUG_BUILD__ : bool.

(** [flush] of [@sentry/node], as a function of its timeout argument. *)
Variable flush : Z -> FlushBehaviour.

(** What the native [end] number [f] returns (or throws) on a response with
    the given status code, called with the given arguments. *)
Variable native_end : nat -> Z -> list Value -> Outcome.

(** ** [finishTransaction] *)

(** An async function runs synchronously up to its first [await]; its result
    promise [ret] is created on entry. *)
Definition finishTransaction (transaction : option Transaction)
    (res : ServerResponse) (s : Loop) : PromiseId * Loop :=
  let '(ret, s) := new_promise (Pending []) s in
  match transaction with
  | Some t =>
      let s := emit (EvSetHttpStatus t (statusCode res)) s in
      let '(transactionFinished, s) := new_promise (Pending []) s in
      let s := setImmediate (TFinishImmediate t transactionFinished) s in
      let s := await transactionFinished (KFinishTransaction ret) s in
      (ret, s)
  | None => (ret, settle ret (Fulfilled VUndefined) s)
  end.

(** ** [flushQueue] *)

Definition log (args : list Value) (s : Loop) : Loop :=
  if __DEBUG_BUILD__ then emit (EvLog args) s else s.

(** The [catch] block, followed by the normal end of the function body. *)
Definition flushQueue_catch (ret : PromiseId) (e : Value) (s : Loop) : Loop :=
  let s := log [VString ("Error while flushing events:" +:+ String (Ascii.ascii_of_nat 10) ""); e] s in
  settle ret (Fulfilled VUndefined) s.

(** The rest of the [try] block after [await flush(2000)]. *)
Definition flushQueue_resume (ret : PromiseId) (o : Settlement) (s : Loop) : Loop :=
  match o with
  | Fulfilled _ =>
      let s := log [VString "Done flushing events"] s in
      settle ret (Fulfilled VUndefined) s
  | Rejected e => flushQueue_catch ret e s
  end.

Definition flushQueue (s : Loop) : PromiseId * Loop :=
  let '(ret, s) := new_promise (Pending []) s in
  let s := log [VString "Flushing events..."] s in
  let s := emit (EvFlush 2000) s in
  match flush 2000 with
  | FlushThrows e => (ret, flushQueue_catch ret e s)
  | FlushSettled o =>
      let '(p, s) := new_promise (Settled o) s in
      (ret, await p (KFlushQueue ret) s)
  | FlushLater o =>
      let '(p, s) := new_promise (Pending []) s in
      let s := scheduleLater (TSettle p o) s in
      (ret, await p (KFlushQueue ret) s)
  | FlushNever =>
      let '(p, s) := new_promise (Pending []) s in
      (ret, await p (KFlushQueue ret) s)
  end.

(** ** Running the loop *)

Definition run_task (t : Task) (s : Loop) : Loop :=
  match t with
  | TMarker n => emit (EvMarker n) s
  | TFinishImmediate t resolve =>
      settle resolve (Fulfilled VUndefined) (emit (EvFinish t) s)
  | TResume (KFinishTransaction ret) (Fulfilled _) =>
      settle ret (Fulfilled VUndefined) s
  | TResume (KFinishTransaction ret) (Rejected e) =>
      settle ret (Rejected e) s
  | TResume (KFlushQueue ret) o => flushQueue_resume ret o s
  | TSettle p o => settle p o s
  end.

(** One callback: a microtask if there is one, else the next callback of the
    running phase, else the next immediate, else the loop moves on to the
    callbacks of the following iteration.  [None] when the loop is idle. *)
Definition step (s : Loop) : option Loop :=
  match microtasks s, poll s, immediates s, later s with
  | t :: q, _, _, _ =>
      Some (run_task t (mkLoop (trace s) (promises s) q (poll s) (immediates s) (later s)))
  | [], t :: q, _, _ =>
      Some (run_task t (mkLoop (trace s) (promises s) [] q (immediates s) (later s)))
  | [], [], t :: q, _ =>
      Some (run_task t (mkLoop (trace s) (promises s) [] [] q (later s)))
  | [], [], [], t :: q =>
      Some (run_task t (mkLoop (trace s) (promises s) [] [] [] q))
  | [], [], [], [] => None
  end.

Fixpoint run (fuel : nat) (s : Loop) : Loop :=
  match fuel with
  | O => s
  | S n => match step s with
           | Some s' => run n s'
           | None => s
           end
  end.

Definition idle (s : Loop) : bool :=
  match step s with None => true | Some _ => false end.

(** ** [autoEndTransactionOnResponseEnd] *)

(** Calling whatever sits in [res.end] as [f.call(this, ...args)].  The
    closure [sentryWrappedEnd] starts [finishTransaction] and drops its
    promise ([void]), then calls [origEnd] and returns what it returns. *)
Fixpoint call_end (f : EndMethod) (this : ServerResponse) (args : list Value)
    (s : Loop) : Outcome * Loop :=
  match f with
  | NativeEnd n _ =>
      (native_end n (statusCode this) args,
       emit (EvOrigEnd n (statusCode this) args) s)
  | sentryWrappedEnd transaction origEnd _ =>
      let '(_, s) := finishTransaction transaction this s in
      call_end origEnd this args s
  end.

Definition wrapEndMethod (transaction : option Transaction)
    (origEnd : EndMethod) : EndMethod :=
  sentryWrappedEnd transaction origEnd false.

(** Modelled from the spec: the marking step of [fill] ([@sentry/utils] is
    not part of the sources).  It sets the wrap marker
    ([__sentry_original__], whose value is the original function) on the
    replacement. *)
Definition markFunctionWrapped (wrapped original : EndMethod) : EndMethod :=
  match wrapped with
  | NativeEnd f _ => NativeEnd f true
  | sentryWrappedEnd t o _ => sentryWrappedEnd t o true
  end.

(** Modelled from the spec: [fill(res, 'end', replacementFactory)] of
    [@sentry/utils], which is not part of the sources.  It replaces the
    finish operation by what the factory makes of the original and sets the
    wrap marker on the replacement. *)
Definition fill (res : ServerResponse)
    (replacementFactory : EndMethod -> EndMethod) : ServerResponse :=
  let original := end_ res in
  let wrapped := replacementFactory original in
  mkResponse (statusCode res) (markFunctionWrapped wrapped original).

(** The response is mutated in place; the function returns the response as it
    is afterwards. *)
Definition autoEndTransactionOnResponseEnd (transaction : option Transaction)
    (res : ServerResponse) : ServerResponse :=
  if negb (__sentry_original__ (end_ res))
  then fill res (wrapEndMethod transaction)
  else res.

End Capabilities.

(** ** Vocabulary of the statements *)

#[global] Instance Value_eq_dec : EqDecision Value.
Proof. solve_decision. Defined.

#[global] Instance Settlement_eq_dec : EqDecision Settlement.
Proof. solve_decision. Defined.

#[global] Instance Event_eq_dec : EqDecision Event.
Proof. solve_decision. Defined.

(** Index of the first occurrence of an event. *)
Fixpoint position (e : Event) (tr : list Event) : option nat :=
  match tr with
  | [] => None
  | x :: tr => if decide (x = e) then Some O else S <$> position e tr
  end.

(** Both events occur, and [a] first occurs before [b] first occurs. *)
Definition occurs_before (a b : Event) (tr : list Event) : bool :=
  match position a tr, position b tr with
  | Some i, Some j => Nat.ltb i j
  | _, _ => false
  end.

Definition is_flush (e : Event) : bool :=
  match e with EvFlush _ => true | _ => false end.

Definition is_log (e : Event) : bool :=
  match e with EvLog _ => true | _ => false end.

(** Calls on a tracing handle. *)
Definition is_tracing (e : Event) : bool :=
  match e with
  | EvSetHttpStatus _ _ | EvFinish _ => true
  | _ => false
  end.

(** The trace without the promise instrumentation. *)
Definition is_effect (e : Event) : bool :=
  match e with EvSettled _ _ => false | _ => true end.

Definition effects (tr : list Event) : list Event := List.filter is_effect tr.

(** A loop in which the surrounding program has queued callbacks only:
    [mm] in the microtask queue, [mp] in the running phase, [mi] with
    [setImmediate], [ml] for later iterations. *)
Definition env_state (tr : list Event) (ps : list PState)
    (mm mp mi ml : list nat) : Loop :=
  mkLoop tr ps (map TMarker mm) (map TMarker mp) (map TMarker mi)
         (map TMarker ml).

(** Callbacks the loop runs after a call of [finishTransaction] with a handle
    in [env_state _ _ mm mp mi ml] until it is idle: the queued ones, the
    deferred callback and the resumption of the async function. *)
Definition fuel_finish (mm mp mi ml : list nat) : nat :=
  (length mm + length mp + length mi + 2 + length ml)%nat.

(** The promise of the deferred callback is fulfilled, then the promise
    [ret] of the async function. *)
Definition settled_finish (ret : PromiseId) : list Event :=
  [EvSettled (S ret) (Fulfilled VUndefined); EvSettled ret (Fulfilled VUndefined)].

(** What [finishTransaction] does to the handle before it returns. *)
Definition tracing_sync (transaction : option Transaction) (code : Z)
    : list Event :=
  match transaction with
  | Some t => [EvSetHttpStatus t code]
  | None => []
  end.

(** Effects of calling [f] on a response with status code [code], without
    the promise instrumentation. *)
Fixpoint end_effects (f : EndMethod) (code : Z) (args : list Value)
    : list Event :=
  match f with
  | NativeEnd n _ => [EvOrigEnd n code args]
  | sentryWrappedEnd transaction origEnd _ =>
      tracing_sync transaction code ++ end_effects origEnd code args
  end.

(** Callbacks the loop runs from [env_state _ _ mm mp mi ml]. *)
Definition fuel_env (mm mp mi ml : list nat) : nat :=
  (length mm + length mp + length mi + length ml)%nat.

(** Number of [sentryWrappedEnd] layers around a function. *)
Fixpoint wrap_layers (f : EndMethod) : nat :=
  match f with
  | NativeEnd _ _ => O
  | sentryWrappedEnd _ origEnd _ => S (wrap_layers origEnd)
  end.

(** Calling the wrap operation once per element of [ts], in order. *)
Definition wrap_many (ts : list (option Transaction)) (res : ServerResponse)
    : ServerResponse :=
  fold_left (fun r t => autoEndTransactionOnResponseEnd t r) ts res.

(** What [logger.log] shows for a build with the given debug flag. *)
Definition logged (__DEBUG_BUILD__ : bool) (args : list Value) : list Event :=
  if __DEBUG_BUILD__ then [EvLog args] else [].

Definition flushing_msg : list Value := [VString "Flushing events..."].
Definition done_msg : list Value := [VString "Done flushing events"].
Definition error_msg (e : Value) : list Value :=
  [VString ("Error while flushing events:" +:+ String (Ascii.ascii_of_nat 10) ""); e].

(** The failure of the flush capability, if it fails: the value it throws or
    rejects with. *)
Definition flush_failure (b : FlushBehaviour) : option Value :=
  match b with
  | FlushThrows e => Some e
  | FlushSettled (Rejected e) => Some e
  | FlushLater (Rejected e) => Some e
  | FlushSettled (Fulfilled _) => None
  | FlushLater (Fulfilled _) => None
  | FlushNever => None
  end.

(** What [flushQueue] logs once the capability is done. *)
Definition flush_completion (__DEBUG_BUILD__ : bool) (o : Settlement) : list Event :=
  match o with
  | Fulfilled _ => logged __DEBUG_BUILD__ done_msg
  | Rejected e => logged __DEBUG_BUILD__ (error_msg e)
  end.

(** Callbacks the loop runs after a call of [flushQueue] in
    [env_state _ _ mm mp mi ml] until it is idle. *)
Definition fuel_flush (b : FlushBehaviour) (mm mp mi ml : list nat) : nat :=
  (fuel_env mm mp mi ml
   + match b with
     | FlushThrows _ => 0
     | FlushSettled _ => 1
     | FlushLater _ => 2
     | FlushNever => 0
     end)%nat.

(** Events of a call of [flushQueue] in [env_state _ _ mm mp mi ml] and of
    the loop after it, when the capability behaves as [b]; [ret] is the
    promise of [flushQueue]. *)
Definition flushQueue_events (__DEBUG_BUILD__ : bool) (b : FlushBehaviour)
    (ret : PromiseId) (mm mp mi ml : list nat) : list Event :=
  logged __DEBUG_BUILD__ flushing_msg ++ [EvFlush 2000]
  ++ match b with
     | FlushThrows e =>
         logged __DEBUG_BUILD__ (error_msg e)
         ++ [EvSettled ret (Fulfilled VUndefined)]
         ++ map EvMarker (mm ++ mp ++ mi ++ ml)
     | FlushSettled o =>
         map EvMarker mm ++ flush_completion __DEBUG_BUILD__ o
         ++ [EvSettled ret (Fulfilled VUndefined)]
         ++ map EvMarker (mp ++ mi ++ ml)
     | FlushLater o =>
         map EvMarker (mm ++ mp ++ mi ++ ml) ++ [EvSettled (S ret) o]
         ++ flush_completion __DEBUG_BUILD__ o
         ++ [EvSettled ret (Fulfilled VUndefined)]
     | FlushNever => map EvMarker (mm ++ mp ++ mi ++ ml)
     end.

(** The promises of a call of [flushQueue] once the loop is idle: its own
    promise [ret] and, unless [flush] threw, the promise [flush] returned. *)
Definition flushQueue_store (b : FlushBehaviour) (ret : PromiseId)
    : list PState :=
  match b with
  | FlushThrows _ => [Settled (Fulfilled VUndefined)]
  | FlushSettled o => [Settled (Fulfilled VUndefined); Settled o]
  | FlushLater o => [Settled (Fulfilled VUndefined); Settled o]
  | FlushNever => [Pending []; Pending [KFlushQueue ret]]
  end.

(** Promise [p] is settled by this event. *)
Definition settles (p : PromiseId) (e : Event) : bool :=
  match e with
  | EvSettled q _ => Nat.eqb p q
  | _ => false
  end.

(** ** Vocabulary of the further statements *)

(** [n] calls of the function in [res.end], one after the other, before the
    loop runs another callback. *)
Fixpoint call_end_times (native_end : nat -> Z -> list Value -> Outcome)
    (n : nat) (f : EndMethod) (this : ServerResponse) (args : list Value)
    (s : Loop) : Loop :=
  match n with
  | O => s
  | S n =>
      call_end_times native_end n f this args
        (snd (call_end native_end f this args s))
  end.

(** What [n] calls of [finishTransaction] with a handle leave behind when the
    first of them allocates promise [base]: the promises, the deferred
    callbacks, and the events of those callbacks. *)
Fixpoint finish_store (base n : nat) : list PState :=
  match n with
  | O => []
  | S n =>
      Pending [] :: Pending [KFinishTransaction base]
        :: finish_store (S (S base)) n
  end.

Fixpoint finish_immediates (t : Transaction) (base n : nat) : list Task :=
  match n with
  | O => []
  | S n => TFinishImmediate t (S base) :: finish_immediates t (S (S base)) n
  end.

Fixpoint finish_events (t : Transaction) (base n : nat) : list Event :=
  match n with
  | O => []
  | S n =>
      EvFinish t :: EvSettled (S base) (Fulfilled VUndefined)
        :: EvSettled base (Fulfilled VUndefined)
        :: finish_events t (S (S base)) n
  end.

(** The synchronous events of [n] calls of the replacement of the native
    [end] number [f]. *)
Fixpoint wrapped_calls (t : Transaction) (f : nat) (code : Z)
    (args : list Value) (n : nat) : list Event :=
  match n with
  | O => []
  | S n =>
      EvSetHttpStatus t code :: EvOrigEnd f code args
        :: wrapped_calls t f code args n
  end.

Definition is_orig_end (e : Event) : bool :=
  match e with EvOrigEnd _ _ _ => true | _ => false end.

Definition is_finish_or_flush (e : Event) : bool :=
  match e with
  | EvFinish _ | EvFlush _ => true
  | _ => false
  end.

Definition is_flush_or_log (e : Event) : bool :=
  match e with
  | EvFlush _ | EvLog _ => true
  | _ => false
  end.

End ResponseEnd.

(** * The script [use-ts-3_8.js] *)

Module UseTs38.

Section Json.

(** The numbers of JavaScript (doubles, with [-0], the infinities and [NaN])
    are left abstract: the script never computes with them. *)
Context {Number : Type}.

(** ** JSON values

    What [require] yields for a [.json] file.  An object keeps its members in
    property order. *)
Inductive Json :=
| JNull
| JBool (b : bool)
| JNumber (n : Number)
| JString (s : string)
| JArray (items : list Json)
| JObject (members : list (string * Json)).

(** ** Property access and [delete] *)

(** [o[k]] on an object: the first member named [k]. *)
Fixpoint lookup_member (k : string) (ms : list (string * Json)) : option Json :=
  match ms with
  | [] => None
  | (k', v) :: ms => if String.eqb k k' then Some v else lookup_member k ms
  end.

(** Removing the own property [k]. *)
Fixpoint remove_member (k : string) (ms : list (string * Json))
    : list (string * Json) :=
  match ms with
  | [] => []
  | (k', v) :: ms =>
      if String.eqb k k' then remove_member k ms
      else (k', v) :: remove_member k ms
  end.

(** Storing [v] under the existing key [k], in place. *)
Fixpoint update_member (k : string) (v : Json) (ms : list (string * Json))
    : list (string * Json) :=
  match ms with
  | [] => []
  | (k', v') :: ms =>
      if String.eqb k k' then (k', v) :: ms
      else (k', v') :: update_member k v ms
  end.

(** [delete base.k] for a name [k] that is neither an array index nor
    [length]: only an object has such an own property; on any other value
    nothing is deleted. *)
Definition delete_property (base : Json) (k : string) : Json :=
  match base with
  | JObject ms => JObject (remove_member k ms)
  | _ => base
  end.

(** [delete tsConfig.compilerOptions.noUncheckedIndexedAccess].  The value
    held by [compilerOptions] is changed in place, so [tsConfig] sees the
    change.  [None]: a [TypeError] was thrown, because [tsConfig] is [null],
    or [tsConfig.compilerOptions] is [undefined] (no such member, or
    [tsConfig] is not an object) or [null]. *)
Definition delete_noUncheckedIndexedAccess (tsConfig : Json) : option Json :=
  match tsConfig with
  | JObject ms =>
      match lookup_member "compilerOptions" ms with
      | None => None
      | Some JNull => None
      | Some co =>
          Some (JObject (update_member "compilerOptions"
                           (delete_property co "noUncheckedIndexedAccess") ms))
      end
  | _ => None
  end.

(** ** [JSON.stringify(value, null, 2)] *)

(** The text [JSON.stringify] writes for a number: its shortest decimal
    form, in exponent notation for large and small magnitudes, and [null]
    for the infinities and [NaN]. *)
Context (number_to_string : Number -> string).

Definition newline : string := String (Ascii.ascii_of_nat 10) "".

Definition dquote : Ascii.ascii := Ascii.ascii_of_nat 34.

Definition hex_digit (n : nat) : Ascii.ascii :=
  Ascii.ascii_of_nat (if Nat.ltb n 10 then 48 + n else 87 + n).

(** One character of a quoted string. *)
Definition escape_char (c : Ascii.ascii) : string :=
  let n := Ascii.nat_of_ascii c in
  if Nat.eqb n 34 then "\" +:+ String dquote ""
  else if Nat.eqb n 92 then "\\"
  else if Nat.eqb n 8 then "\b"
  else if Nat.eqb n 12 then "\f"
  else if Nat.eqb n 10 then "\n"
  else if Nat.eqb n 13 then "\r"
  else if Nat.eqb n 9 then "\t"
  else if Nat.ltb n 32 then
    "\u00" +:+ String (hex_digit (Nat.div n 16)) (String (hex_digit (Nat.modulo n 16)) "")
  else String c "".

Fixpoint escape (s : string) : string :=
  match s with
  | EmptyString => ""
  | String c s => escape_char c +:+ escape s
  end.

Definition quote (s : string) : string :=
  String dquote (escape s +:+ String dquote "").

Fixpoint join (sep : string) (parts : list string) : string :=
  match parts with
  | [] => ""
  | [p] => p
  | p :: ps => p +:+ sep +:+ join sep ps
  end.

Definition gap : string := "  ".

(** [indent] is the indentation of the line the value starts on. *)
Fixpoint stringify_at (indent : string) (j : Json) : string :=
  match j with
  | JNull => "null"
  | JBool true => "true"
  | JBool false => "false"
  | JNumber n => number_to_string n
  | JString s => quote s
  | JArray [] => "[]"
  | JArray items =>
      let inner := indent +:+ gap in
      "[" +:+ newline +:+ inner
        +:+ join ("," +:+ newline +:+ inner) (map (stringify_at inner) items)
        +:+ newline +:+ indent +:+ "]"
  | JObject [] => "{}"
  | JObject members =>
      let inner := indent +:+ gap in
      "{" +:+ newline +:+ inner
        +:+ join ("," +:+ newline +:+ inner)
             (map (fun kv => quote (fst kv) +:+ ": " +:+ stringify_at inner (snd kv))
                  members)
        +:+ newline +:+ indent +:+ "}"
  end.

Definition stringify (j : Json) : string := stringify_at "" j.

(** ** The script *)

Definition tsVersion : string := "3.8".

Definition yarn_add : string :=
  "yarn add --dev --ignore-workspace-root-check typescript@" +:+ tsVersion
    +:+ " @types/node@^14".

(** The files and the console. *)
Record World := mkWorld {
  files : gmap string string;
  console : list string
}.

Section Script.

(** [join(cwd, 'packages/typescript/tsconfig.json')]. *)
Variable baseTscConfigPath : string.

(** [execSync(command, { stdio: 'inherit', cwd })]: what the command leaves
    on disk, or [None] when it fails and [execSync] throws. *)
Variable execSync : string -> gmap string string -> option (gmap string string).

(** [require(path)] of a [.json] file: the parsed content, or [None] when the
    file cannot be loaded and [require] throws. *)
Variable require : gmap string string -> string -> option Json.

(** [None]: the script died with an exception; the world is then as the
    steps before the exception left it, which is not modelled further. *)
Definition use_ts_3_8 (w : World) : option World :=
  let out := console w ++ ["Installing typescript@" +:+ tsVersion +:+ ", and @types/node@14..."] in
  match execSync yarn_add (files w) with
  | None => None
  | Some fs =>
      let out := out ++ ["Removing unsupported tsconfig options..."] in
      match require fs baseTscConfigPath with
      | None => None
      | Some tsConfig =>
          match delete_noUncheckedIndexedAccess tsConfig with
          | None => None
          | Some tsConfig' =>
              Some (mkWorld (<[baseTscConfigPath := stringify tsConfig']> fs) out)
          end
      end
  end.

End Script.

(** ** The change, in the words of the claim

    The configuration with the member [noUncheckedIndexedAccess] of
    [compilerOptions] taken out and every other member kept, in its place and
    with its value. *)
Definition other_members (k : string) (ms : list (string * Json))
    : list (string * Json) :=
  List.filter (fun kv => negb (String.eqb k (fst kv))) ms.

Definition without_noUncheckedIndexedAccess (compilerOptions : Json) : Json :=
  match compilerOptions with
  | JObject ms => JObject (other_members "noUncheckedIndexedAccess" ms)
  | _ => compilerOptions
  end.

End Json.

(** ** A sample run

    The sample configurations hold no numbers; for them a number is taken by
    the text that is written for it. *)

Definition sample_number_to_string (text : string) : string := text.

Definition sample_path : string := "/repo/packages/typescript/tsconfig.json".

Definition sample_config : @Json string :=
  JObject
    [("extends", JString "./tsconfig.base.json");
     ("compilerOptions",
      JObject [("strict", JBool true);
               ("noUncheckedIndexedAccess", JBool true);
               ("lib", JArray [JString "es2018"])]);
     ("include", JArray [JString "src/**/*"])].

Definition sample_config_after : @Json string :=
  JObject
    [("extends", JString "./tsconfig.base.json");
     ("compilerOptions",
      JObject [("strict", JBool true);
               ("lib", JArray [JString "es2018"])]);
     ("include", JArray [JString "src/**/*"])].

(** [yarn add] succeeds and leaves the files alone; the configuration file
    holds [sample_config]. *)
Definition sample_execSync (command : string) (fs : gmap string string)
    : option (gmap string string) := Some fs.


Definition sample_world : World := mkWorld ∅ [].

(** ** Vocabulary of the further statements *)

(** [tsConfig.compilerOptions] is [undefined] or [null], or [tsConfig]
    itself is [null]: the operand of the [delete] cannot be evaluated. *)
Definition lacks_compilerOptions {Number : Type} (tsConfig : @Json Number)
    : Prop :=
  match tsConfig with
  | JObject ms =>
      lookup_member "compilerOptions" ms = None
      \/ lookup_member "compilerOptions" ms = Some JNull
  | _ => True
  end.


(** A configuration without [compilerOptions]. *)
Definition bare_config : @Json string :=
  JObject [("extends", JString "./tsconfig.base.json")].

Definition bare_require (fs : gmap string string) (path : string)
    : option (@Json string) := Some bare_config.


End UseTs38.

(** * Properties of [responseEnd.ts] *)

Module ResponseEndSpec.
Import ResponseEnd.

(** ** The promise store *)

Lemma lookup_snoc (ps : list PState) a : (ps ++ [a]) !! length ps = Some a.
Proof. by apply list_lookup_middle. Qed.

Lemma insert_snoc (ps : list PState) a x :
  <[length ps := x]> (ps ++ [a]) = ps ++ [x].
Proof.
  replace (length ps) with (length ps + 0)%nat by lia.
  by rewrite insert_app_r.
Qed.

Lemma lookup_snoc2_fst (ps : list PState) a b :
  (ps ++ [a; b]) !! length ps = Some a.
Proof. by apply list_lookup_middle. Qed.

Lemma lookup_snoc2_snd (ps : list PState) a b :
  (ps ++ [a; b]) !! S (length ps) = Some b.
Proof.
  replace (ps ++ [a; b]) with ((ps ++ [a]) ++ [b]) by by rewrite <- app_assoc.
  apply list_lookup_middle. rewrite length_app. simpl. lia.
Qed.

Lemma insert_snoc2_fst (ps : list PState) a b x :
  <[length ps := x]> (ps ++ [a; b]) = ps ++ [x; b].
Proof.
  replace (length ps) with (length ps + 0)%nat by lia.
  by rewrite insert_app_r.
Qed.

Lemma insert_snoc2_snd (ps : list PState) a b x :
  <[S (length ps) := x]> (ps ++ [a; b]) = ps ++ [a; x].
Proof.
  replace (S (length ps)) with (length ps + 1)%nat by lia.
  by rewrite insert_app_r.
Qed.

Section Properties.

Variable __DEBUG_BUILD__ : bool.
Variable flush : Z -> FlushBehaviour.
Variable native_end : nat -> Z -> list Value -> Outcome.

Notation run := (run __DEBUG_BUILD__).
Notation flushQueue := (flushQueue __DEBUG_BUILD__ flush).
Notation call_end := (call_end native_end).

(** ** Running the loop *)

Lemma run_idle n s : step __DEBUG_BUILD__ s = None -> run n s = s.
Proof. intros H. destruct n; simpl; [done | by rewrite H]. Qed.

Lemma run_S n s :
  run (S n) s = match step __DEBUG_BUILD__ s with Some s' => run n s' | None => s end.
Proof. reflexivity. Qed.

Lemma settle_pending p o ks tr ps mc po im la :
  ps !! p = Some (Pending ks) ->
  settle p o (mkLoop tr ps mc po im la)
  = mkLoop (tr ++ [EvSettled p o]) (<[p := Settled o]> ps)
           (mc ++ map (fun k => TResume k o) ks) po im la.
Proof. intros H. unfold settle; simpl. by rewrite H. Qed.

Lemma run_plus a b s : run (a + b) s = run b (run a s).
Proof.
  revert s. induction a as [|a IH]; intros s; simpl; [done |].
  destruct (step __DEBUG_BUILD__ s) eqn:E; [apply IH | by rewrite run_idle].
Qed.

Lemma run_microtask_markers (mm : list nat) tr ps q po im la :
  run (length mm) (mkLoop tr ps (map TMarker mm ++ q) po im la)
  = mkLoop (tr ++ map EvMarker mm) ps q po im la.
Proof.
  revert tr. induction mm as [|m mm IH]; intros tr; simpl.
  - by rewrite app_nil_r.
  - unfold emit; simpl. rewrite IH. by rewrite <- app_assoc.
Qed.

Lemma run_poll_markers (mp : list nat) tr ps q im la :
  run (length mp) (mkLoop tr ps [] (map TMarker mp ++ q) im la)
  = mkLoop (tr ++ map EvMarker mp) ps [] q im la.
Proof.
  revert tr. induction mp as [|m mp IH]; intros tr; simpl.
  - by rewrite app_nil_r.
  - unfold emit; simpl. rewrite IH. by rewrite <- app_assoc.
Qed.

Lemma run_immediate_markers (mi : list nat) tr ps q la :
  run (length mi) (mkLoop tr ps [] [] (map TMarker mi ++ q) la)
  = mkLoop (tr ++ map EvMarker mi) ps [] [] q la.
Proof.
  revert tr. induction mi as [|m mi IH]; intros tr; simpl.
  - by rewrite app_nil_r.
  - unfold emit; simpl. rewrite IH. by rewrite <- app_assoc.
Qed.

Lemma run_later_markers (ml : list nat) tr ps q :
  run (length ml) (mkLoop tr ps [] [] [] (map TMarker ml ++ q))
  = mkLoop (tr ++ map EvMarker ml) ps [] [] [] q.
Proof.
  revert tr. induction ml as [|m ml IH]; intros tr; simpl.
  - by rewrite app_nil_r.
  - unfold emit; simpl. rewrite IH. by rewrite <- app_assoc.
Qed.

(** The trace only grows. *)
Lemma settle_trace p o s : exists ext, trace (settle p o s) = trace s ++ ext.
Proof.
  unfold settle. destruct (promises s !! p) as [[ks | o']|].
  - by exists [EvSettled p o].
  - exists []. by rewrite app_nil_r.
  - exists []. by rewrite app_nil_r.
Qed.

Lemma log_trace args s :
  exists ext, trace (log __DEBUG_BUILD__ args s) = trace s ++ ext.
Proof.
  unfold log. destruct __DEBUG_BUILD__.
  - by exists [EvLog args].
  - exists []. by rewrite app_nil_r.
Qed.

Lemma run_task_trace t s :
  exists ext, trace (run_task __DEBUG_BUILD__ t s) = trace s ++ ext.
Proof.
  destruct t as [n | t p | [ret | ret] [v | e] | p o]; simpl;
    try apply settle_trace.
  - by exists [EvMarker n].
  - destruct (settle_trace p (Fulfilled VUndefined) (emit (EvFinish t) s))
      as [ext H].
    exists (EvFinish t :: ext). rewrite H. simpl. by rewrite <- app_assoc.
  - destruct (log_trace [VString "Done flushing events"] s) as [e1 H1].
    destruct (settle_trace ret (Fulfilled VUndefined)
                (log __DEBUG_BUILD__ [VString "Done flushing events"] s))
      as [e2 H2].
    exists (e1 ++ e2). by rewrite H2, H1, app_assoc.
  - unfold flushQueue_catch.
    destruct (log_trace (error_msg e) s) as [e1 H1].
    destruct (settle_trace ret (Fulfilled VUndefined)
                (log __DEBUG_BUILD__ (error_msg e) s)) as [e2 H2].
    exists (e1 ++ e2). unfold error_msg in *. by rewrite H2, H1, app_assoc.
Qed.

Lemma step_trace s s' :
  step __DEBUG_BUILD__ s = Some s' -> exists ext, trace s' = trace s ++ ext.
Proof.
  unfold step.
  destruct (microtasks s) as [|t1 q1]; [destruct (poll s) as [|t2 q2];
    [destruct (immediates s) as [|t3 q3]; [destruct (later s) as [|t4 q4] |] |] |];
    intros [= <-];
    match goal with
    | |- exists ext, trace (run_task _ ?t ?S) = _ =>
        destruct (run_task_trace t S) as [ext H]; exists ext; exact H
    end.
Qed.

Lemma run_trace k s : exists ext, trace (run k s) = trace s ++ ext.
Proof.
  revert s. induction k as [|k IH]; intros s; simpl.
  - exists []. by rewrite app_nil_r.
  - destruct (step __DEBUG_BUILD__ s) as [s'|] eqn:E.
    + destruct (step_trace _ _ E) as [e1 H1]. destruct (IH s') as [e2 H2].
      exists (e1 ++ e2). by rewrite H2, H1, app_assoc.
    + exists []. by rewrite app_nil_r.
Qed.

(** While callbacks of the surrounding program run, no promise changes. *)
Lemma run_markers_promises k ps q la :
  forall (mm mp mi : list nat) tr,
    (k <= length mm + length mp + length mi)%nat ->
    promises (run k (mkLoop tr ps (map TMarker mm) (map TMarker mp)
                            (map TMarker mi ++ q) la)) = ps.
Proof.
  induction k as [|k IH]; intros mm mp mi tr Hk; [done |].
  destruct mm as [|m mm]; [destruct mp as [|m mp]; [destruct mi as [|m mi] |] |];
    simpl in Hk; try lia; rewrite run_S;
    cbn [step map app microtasks poll immediates later trace promises
         run_task emit].
  - apply (IH [] [] mi). simpl. lia.
  - apply (IH [] mp mi). simpl. lia.
  - apply (IH mm mp mi). lia.
Qed.

(** ** [finishTransaction] *)

(** The synchronous part with a handle, in any state of the loop. *)
Lemma finishTransaction_present t res tr ps mc po im la :
  finishTransaction (Some t) res (mkLoop tr ps mc po im la)
  = (length ps,
     mkLoop (tr ++ [EvSetHttpStatus t (statusCode res)])
            (ps ++ [Pending []; Pending [KFinishTransaction (length ps)]])
            mc po (im ++ [TFinishImmediate t (S (length ps))]) la).
Proof.
  unfold finishTransaction, new_promise, emit, setImmediate, await; simpl.
  rewrite length_app; simpl.
  replace (length ps + 1)%nat with (S (length ps)) by lia.
  rewrite <- app_assoc; simpl.
  rewrite lookup_snoc2_snd. unfold set_promise; simpl.
  by rewrite insert_snoc2_snd.
Qed.

(** The synchronous part without a handle. *)
Lemma finishTransaction_absent res tr ps mc po im la :
  finishTransaction None res (mkLoop tr ps mc po im la)
  = (length ps,
     mkLoop (tr ++ [EvSettled (length ps) (Fulfilled VUndefined)])
            (ps ++ [Settled (Fulfilled VUndefined)]) mc po im la).
Proof.
  unfold finishTransaction, new_promise, settle; simpl.
  rewrite lookup_snoc.
  unfold queueMicrotasks, emit, set_promise; simpl.
  by rewrite insert_snoc, app_nil_r.
Qed.

(** The deferred callback and the resumption of the async function. *)
Lemma run_finish_immediate t tr ps la :
  run 2 (mkLoop tr (ps ++ [Pending []; Pending [KFinishTransaction (length ps)]])
                [] [] [TFinishImmediate t (S (length ps))] la)
  = mkLoop (tr ++ [EvFinish t;
                   EvSettled (S (length ps)) (Fulfilled VUndefined);
                   EvSettled (length ps) (Fulfilled VUndefined)])
           (ps ++ [Settled (Fulfilled VUndefined); Settled (Fulfilled VUndefined)])
           [] [] [] la.
Proof.
  rewrite run_S; cbn [step microtasks poll immediates later trace promises run_task].
  unfold emit; cbn [microtasks poll immediates later trace promises].
  rewrite (settle_pending _ _ [KFinishTransaction (length ps)])
    by apply lookup_snoc2_snd.
  rewrite insert_snoc2_snd; cbn [map app].
  rewrite run_S; cbn [step microtasks poll immediates later trace promises run_task].
  rewrite (settle_pending _ _ []) by apply lookup_snoc2_fst.
  rewrite insert_snoc2_fst; cbn [map app run].
  by rewrite <- !app_assoc.
Qed.

(** The loop up to and including the deferred callback. *)
Lemma run_until_finish t tr ps (mm mp mi : list nat) la :
  run (length mm + length mp + length mi + 1)
      (mkLoop tr (ps ++ [Pending []; Pending [KFinishTransaction (length ps)]])
              (map TMarker mm) (map TMarker mp)
              (map TMarker mi ++ [TFinishImmediate t (S (length ps))]) la)
  = mkLoop (tr ++ map EvMarker (mm ++ mp ++ mi)
               ++ [EvFinish t; EvSettled (S (length ps)) (Fulfilled VUndefined)])
           (ps ++ [Pending []; Settled (Fulfilled VUndefined)])
           [TResume (KFinishTransaction (length ps)) (Fulfilled VUndefined)]
           [] [] la.
Proof.
  rewrite !run_plus.
  rewrite <- (app_nil_r (map TMarker mm)), run_microtask_markers.
  rewrite <- (app_nil_r (map TMarker mp)), run_poll_markers.
  rewrite run_immediate_markers.
  rewrite run_S; cbn [step microtasks poll immediates later trace promises run_task].
  unfold emit; cbn [microtasks poll immediates later trace promises].
  rewrite (settle_pending _ _ [KFinishTransaction (length ps)])
    by apply lookup_snoc2_snd.
  rewrite insert_snoc2_snd; cbn [map app run].
  f_equal. rewrite !map_app, <- !app_assoc. reflexivity.
Qed.

(** From the state [finishTransaction] leaves behind, the loop runs the
    callbacks that were queued before, then the deferred callback, then the
    callbacks of later iterations. *)
Lemma run_after_finishTransaction t tr ps (mm mp mi ml : list nat) extra :
  run (fuel_finish mm mp mi ml + extra)
      (mkLoop tr (ps ++ [Pending []; Pending [KFinishTransaction (length ps)]])
              (map TMarker mm) (map TMarker mp)
              (map TMarker mi ++ [TFinishImmediate t (S (length ps))])
              (map TMarker ml))
  = mkLoop (tr ++ map EvMarker (mm ++ mp ++ mi)
               ++ EvFinish t :: settled_finish (length ps) ++ map EvMarker ml)
           (ps ++ [Settled (Fulfilled VUndefined); Settled (Fulfilled VUndefined)])
           [] [] [] [].
Proof.
  unfold fuel_finish. rewrite !run_plus.
  rewrite <- (app_nil_r (map TMarker mm)), run_microtask_markers.
  rewrite <- (app_nil_r (map TMarker mp)), run_poll_markers.
  rewrite run_immediate_markers, run_finish_immediate.
  rewrite <- (app_nil_r (map TMarker ml)), run_later_markers.
  rewrite run_idle by reflexivity.
  f_equal. rewrite !map_app, <- !app_assoc. reflexivity.
Qed.

(** C1.  With a handle, [finishTransaction] hands [complete()]
    ([transaction.finish()]) to [setImmediate].  When it returns, its promise
    is pending and [complete()] has not run.  The loop then runs every
    callback that was already queued (microtasks, callbacks of the running
    phase, earlier immediates), after them [complete()], and only after
    [complete()] has returned the promise of the deferred callback and then
    the promise returned by [finishTransaction] are fulfilled.  After any
    number of callbacks, the returned promise is still pending or
    [complete()] has been called. *)
Theorem finishTransaction_defers_complete
    (t : Transaction) (res : ServerResponse) (tr : list Event)
    (ps : list PState) (mm mp mi ml : list nat) (extra : nat) :
  let s0 := env_state tr ps mm mp mi ml in
  let ret := fst (finishTransaction (Some t) res s0) in
  let s1 := snd (finishTransaction (Some t) res s0) in
  let s2 := run (fuel_finish mm mp mi ml + extra) s1 in
  promises s1 !! ret = Some (Pending [])
  /\ trace s1 = tr ++ [EvSetHttpStatus t (statusCode res)]
  /\ immediates s1 = map TMarker mi ++ [TFinishImmediate t (S ret)]
  /\ trace s2 = trace s1 ++ map EvMarker (mm ++ mp ++ mi)
                  ++ EvFinish t :: settled_finish ret ++ map EvMarker ml
  /\ promises s2 !! ret = Some (Settled (Fulfilled VUndefined))
  /\ idle __DEBUG_BUILD__ s2 = true
  /\ (forall k,
        promises (run k s1) !! ret = Some (Pending [])
        \/ In (EvFinish t) (drop (length (trace s1)) (trace (run k s1)))).
Proof.
  unfold env_state. cbv zeta. rewrite finishTransaction_present.
  cbn [fst snd]. rewrite run_after_finishTransaction.
  cbn [trace promises immediates].
  split; [apply lookup_snoc2_fst |].
  split; [reflexivity |]. split; [reflexivity |]. split; [reflexivity |].
  split; [apply lookup_snoc2_fst |]. split; [reflexivity |].
  intros k.
  destruct (le_lt_dec k (length mm + length mp + length mi)) as [Hk | Hk].
  - left. rewrite run_markers_promises by done. apply lookup_snoc2_fst.
  - right.
    replace k with ((length mm + length mp + length mi + 1)
                    + (k - (length mm + length mp + length mi + 1)))%nat by lia.
    rewrite run_plus, run_until_finish.
    match goal with |- context [run ?j ?S] =>
      destruct (run_trace j S) as [ext Hext]; rewrite Hext end.
    cbn [trace].
    rewrite <- (app_assoc (tr ++ [EvSetHttpStatus t (statusCode res)])).
    rewrite drop_app_length.
    apply in_or_app; left. apply in_or_app; right. by left.
Qed.

(** C6.  With a handle, the status code the response has when
    [finishTransaction] is called is recorded on the handle before
    [complete()]: the handle sees exactly one [setHttpStatus], with that
    code, then exactly one [finish].  For a response with status code 404
    this is [setHttpStatus(404)] before [finish()]. *)
Theorem finishTransaction_status_before_complete
    (t : Transaction) (res : ServerResponse) (tr : list Event)
    (ps : list PState) (mm mp mi ml : list nat) (extra : nat) :
  let s0 := env_state tr ps mm mp mi ml in
  let run_all r := run (fuel_finish mm mp mi ml + extra)
                       (snd (finishTransaction (Some t) r s0)) in
  (exists mid post,
      trace (run_all res)
      = tr ++ EvSetHttpStatus t (statusCode res) :: mid ++ EvFinish t :: post
      /\ List.filter is_tracing (mid ++ post) = [])
  /\ (exists mid post,
      trace (run_all (mkResponse 404 (end_ res)))
      = tr ++ EvSetHttpStatus t 404 :: mid ++ EvFinish t :: post
      /\ List.filter is_tracing (mid ++ post) = []).
Proof.
  assert (Hnone : forall l, List.filter is_tracing (map EvMarker l) = []).
  { induction l; simpl; auto. }
  assert (H : forall r,
    exists mid post,
      trace (run (fuel_finish mm mp mi ml + extra)
               (snd (finishTransaction (Some t) r (env_state tr ps mm mp mi ml))))
      = tr ++ EvSetHttpStatus t (statusCode r) :: mid ++ EvFinish t :: post
      /\ List.filter is_tracing (mid ++ post) = []).
  { intros r. unfold env_state. rewrite finishTransaction_present.
    cbn [snd]. rewrite run_after_finishTransaction. cbn [trace].
    exists (map EvMarker (mm ++ mp ++ mi)),
           (settled_finish (length ps) ++ map EvMarker ml).
    split.
    - rewrite <- !app_assoc. reflexivity.
    - rewrite !List.filter_app, !Hnone. reflexivity. }
  cbv zeta. split; [apply H | apply (H (mkResponse 404 (end_ res)))].
Qed.

(** ** The wrapped [end] *)

Lemma run_env tr ps (mm mp mi ml : list nat) extra :
  run (fuel_env mm mp mi ml + extra) (env_state tr ps mm mp mi ml)
  = mkLoop (tr ++ map EvMarker (mm ++ mp ++ mi ++ ml)) ps [] [] [] [].
Proof.
  unfold fuel_env, env_state. rewrite !run_plus.
  rewrite <- (app_nil_r (map TMarker mm)), run_microtask_markers.
  rewrite <- (app_nil_r (map TMarker mp)), run_poll_markers.
  rewrite <- (app_nil_r (map TMarker mi)), run_immediate_markers.
  rewrite <- (app_nil_r (map TMarker ml)), run_later_markers.
  rewrite run_idle by reflexivity.
  f_equal. rewrite !map_app, <- !app_assoc. reflexivity.
Qed.

Lemma finishTransaction_statusCode transaction (res res' : ServerResponse) s :
  statusCode res = statusCode res' ->
  finishTransaction transaction res s = finishTransaction transaction res' s.
Proof. intros H. unfold finishTransaction. by rewrite H. Qed.

(** The functions only read the status code of [this]. *)
Lemma call_end_statusCode f (this this' : ServerResponse) args s :
  statusCode this = statusCode this' ->
  call_end f this args s = call_end f this' args s.
Proof.
  intros H. revert s. induction f as [n m | transaction origEnd IH m]; intros s.
  - simpl. by rewrite H.
  - simpl. rewrite (finishTransaction_statusCode _ this this') by done.
    destruct (finishTransaction transaction this' s). apply IH.
Qed.

Lemma autoEnd_unfold transaction res :
  autoEndTransactionOnResponseEnd transaction res
  = if __sentry_original__ (end_ res) then res
    else mkResponse (statusCode res)
                    (sentryWrappedEnd transaction (end_ res) true).
Proof.
  unfold autoEndTransactionOnResponseEnd.
  destruct (__sentry_original__ (end_ res)); reflexivity.
Qed.

Lemma autoEnd_statusCode transaction res :
  statusCode (autoEndTransactionOnResponseEnd transaction res) = statusCode res.
Proof.
  rewrite autoEnd_unfold. by destruct (__sentry_original__ (end_ res)).
Qed.

Lemma autoEnd_marked transaction res :
  __sentry_original__ (end_ (autoEndTransactionOnResponseEnd transaction res))
  = true.
Proof.
  rewrite autoEnd_unfold.
  by destruct (__sentry_original__ (end_ res)) eqn:E.
Qed.

Lemma autoEnd_noop transaction res :
  __sentry_original__ (end_ res) = true ->
  autoEndTransactionOnResponseEnd transaction res = res.
Proof. intros H. by rewrite autoEnd_unfold, H. Qed.

Lemma wrap_many_noop ts res :
  __sentry_original__ (end_ res) = true -> wrap_many ts res = res.
Proof.
  induction ts as [|t ts IH]; intros H; simpl; [done |].
  unfold wrap_many in *. simpl. rewrite autoEnd_noop by done. by apply IH.
Qed.

(** What calling the replacement amounts to. *)
Lemma call_wrapped transaction res args s :
  let res' := autoEndTransactionOnResponseEnd transaction res in
  call_end (end_ res') res' args s
  = if __sentry_original__ (end_ res) then call_end (end_ res) res args s
    else call_end (end_ res) res args (snd (finishTransaction transaction res s)).
Proof.
  cbv zeta. rewrite autoEnd_unfold.
  destruct (__sentry_original__ (end_ res)); [done |].
  cbn [end_ call_end].
  rewrite (finishTransaction_statusCode _ _ res) by done.
  destruct (finishTransaction transaction res s) as [ret s']. cbn [snd].
  by apply call_end_statusCode.
Qed.

(** C3.  Whatever sits in [res.end], and however often the wrap operation
    is called (with whichever handles), the first call leaves the wrap marker
    set, its result is the original function (when that carried the marker
    already) or one [sentryWrappedEnd] layer around it, and every later call
    returns with the response as it found it: at most one layer is added. *)
Theorem autoEnd_wraps_at_most_once
    (t : option Transaction) (ts : list (option Transaction))
    (res : ServerResponse) :
  let res1 := autoEndTransactionOnResponseEnd t res in
  __sentry_original__ (end_ res1) = true
  /\ end_ res1 = (if __sentry_original__ (end_ res) then end_ res
                  else sentryWrappedEnd t (end_ res) true)
  /\ Forall (fun t' => autoEndTransactionOnResponseEnd t' res1 = res1) ts
  /\ wrap_many (t :: ts) res = res1
  /\ wrap_layers (end_ (wrap_many (t :: ts) res))
     = (wrap_layers (end_ res)
        + if __sentry_original__ (end_ res) then 0 else 1)%nat.
Proof.
  cbv zeta.
  assert (Hmany : wrap_many (t :: ts) res
                  = autoEndTransactionOnResponseEnd t res).
  { unfold wrap_many; simpl. apply wrap_many_noop, autoEnd_marked. }
  split; [apply autoEnd_marked |].
  split; [rewrite autoEnd_unfold; by destruct (__sentry_original__ (end_ res)) |].
  split; [apply Forall_forall; intros t' _; apply autoEnd_noop, autoEnd_marked |].
  split; [exact Hmany |].
  rewrite Hmany, autoEnd_unfold.
  destruct (__sentry_original__ (end_ res)); simpl; lia.
Qed.

Lemma effects_app a b : effects (a ++ b) = effects a ++ effects b.
Proof. apply List.filter_app. Qed.

Lemma finishTransaction_effects transaction res s :
  effects (trace (snd (finishTransaction transaction res s)))
  = effects (trace s) ++ tracing_sync transaction (statusCode res).
Proof.
  destruct s as [tr ps mc po im la]. destruct transaction as [t|].
  - rewrite finishTransaction_present. cbn [snd trace]. by rewrite effects_app.
  - rewrite finishTransaction_absent. cbn [snd trace].
    rewrite effects_app. simpl. reflexivity.
Qed.

Lemma call_end_effects f this args s :
  effects (trace (snd (call_end f this args s)))
  = effects (trace s) ++ end_effects f (statusCode this) args.
Proof.
  revert s. induction f as [n m | transaction origEnd IH m]; intros s.
  - simpl. by rewrite effects_app.
  - cbn [call_end end_effects].
    pose proof (finishTransaction_effects transaction this s) as H.
    destruct (finishTransaction transaction this s) as [ret s'].
    cbn [snd] in H. rewrite IH, H. by rewrite <- app_assoc.
Qed.

(** What the call returns or throws does not depend on the loop. *)
Lemma call_end_outcome f this args s s' :
  fst (call_end f this args s) = fst (call_end f this args s').
Proof.
  revert s s'. induction f as [n m | transaction origEnd IH m]; intros s s'.
  - reflexivity.
  - cbn [call_end].
    destruct (finishTransaction transaction this s) as [r1 s1].
    destruct (finishTransaction transaction this s') as [r2 s2].
    apply IH.
Qed.

Lemma tracing_sync_only transaction code :
  List.filter (fun e => negb (is_tracing e)) (tracing_sync transaction code) = [].
Proof. by destruct transaction. Qed.

(** C4, as the code has it.  For every response, handle, argument list and
    state of the loop, calling the replacement returns (or throws) exactly
    what calling the original with the same arguments does, and performs the
    synchronous effects of the original, unchanged and in the same order.
    What the replacement adds before it returns is confined to the tracing
    handle: with a handle the status code is recorded, before the original
    runs; [complete()] is not among the synchronous effects. *)
Theorem sentryWrappedEnd_preserves_original
    (transaction : option Transaction) (res : ServerResponse)
    (args : list Value) (s : Loop) :
  let res' := autoEndTransactionOnResponseEnd transaction res in
  let wrapped := call_end (end_ res') res' args s in
  let original := call_end (end_ res) res args s in
  let added := if __sentry_original__ (end_ res) then []
               else tracing_sync transaction (statusCode res) in
  fst wrapped = fst original
  /\ effects (trace (snd original))
     = effects (trace s) ++ end_effects (end_ res) (statusCode res) args
  /\ effects (trace (snd wrapped))
     = effects (trace s) ++ added
         ++ end_effects (end_ res) (statusCode res) args
  /\ Forall (fun e => exists t, e = EvSetHttpStatus t (statusCode res)) added
  /\ List.filter (fun e => negb (is_tracing e)) (effects (trace (snd wrapped)))
     = List.filter (fun e => negb (is_tracing e)) (effects (trace (snd original))).
Proof.
  cbv zeta. rewrite call_wrapped.
  assert (Hw : effects (trace (snd
      (if __sentry_original__ (end_ res) then call_end (end_ res) res args s
       else call_end (end_ res) res args
              (snd (finishTransaction transaction res s)))))
    = effects (trace s)
        ++ (if __sentry_original__ (end_ res) then []
            else tracing_sync transaction (statusCode res))
        ++ end_effects (end_ res) (statusCode res) args).
  { destruct (__sentry_original__ (end_ res)).
    - by rewrite call_end_effects.
    - rewrite call_end_effects, finishTransaction_effects.
      by rewrite <- app_assoc. }
  split; [| split; [| split; [| split]]].
  - destruct (__sentry_original__ (end_ res)); [done |].
    apply call_end_outcome.
  - apply call_end_effects.
  - exact Hw.
  - destruct (__sentry_original__ (end_ res)); [by constructor |].
    destruct transaction as [t|]; simpl; repeat constructor. by exists t.
  - rewrite Hw, call_end_effects, !List.filter_app.
    destruct (__sentry_original__ (end_ res)); [done |].
    by rewrite tracing_sync_only.
Qed.

(** The replacement around a native [end], called with a handle. *)
Lemma call_wrapped_native_present t f code args tr ps mc po im la :
  let res := autoEndTransactionOnResponseEnd (Some t)
               (mkResponse code (NativeEnd f false)) in
  call_end (end_ res) res args (mkLoop tr ps mc po im la)
  = (native_end f code args,
     mkLoop (tr ++ [EvSetHttpStatus t code; EvOrigEnd f code args])
            (ps ++ [Pending []; Pending [KFinishTransaction (length ps)]])
            mc po (im ++ [TFinishImmediate t (S (length ps))]) la).
Proof.
  cbv zeta. rewrite call_wrapped. cbn [end_ __sentry_original__].
  rewrite finishTransaction_present. cbn [snd call_end statusCode].
  unfold emit; cbn [trace promises microtasks poll immediates later].
  by rewrite <- app_assoc.
Qed.

(** The replacement around a native [end], called without a handle. *)
Lemma call_wrapped_native_absent f code args tr ps mc po im la :
  let res := autoEndTransactionOnResponseEnd None
               (mkResponse code (NativeEnd f false)) in
  call_end (end_ res) res args (mkLoop tr ps mc po im la)
  = (native_end f code args,
     mkLoop (tr ++ [EvSettled (length ps) (Fulfilled VUndefined);
                    EvOrigEnd f code args])
            (ps ++ [Settled (Fulfilled VUndefined)]) mc po im la).
Proof.
  cbv zeta. rewrite call_wrapped. cbn [end_ __sentry_original__].
  rewrite finishTransaction_absent. cbn [snd call_end statusCode].
  unfold emit; cbn [trace promises microtasks poll immediates later].
  by rewrite <- app_assoc.
Qed.

(** The order of events when the replacement of a native [end] is called
    with a handle: the status code of the response is recorded on the handle
    before the original runs; the original then runs and returns at once;
    [complete()] is called afterwards, on the deferred tick, behind the
    callbacks that were queued when the replacement was called. *)
Theorem sentryWrappedEnd_status_original_complete
    (t : Transaction) (f : nat) (code : Z) (args : list Value)
    (tr : list Event) (ps : list PState) (mm mp mi ml : list nat)
    (extra : nat) :
  let res := autoEndTransactionOnResponseEnd (Some t)
               (mkResponse code (NativeEnd f false)) in
  let called := call_end (end_ res) res args (env_state tr ps mm mp mi ml) in
  let s2 := run (fuel_finish mm mp mi ml + extra) (snd called) in
  fst called = native_end f code args
  /\ trace (snd called) = tr ++ [EvSetHttpStatus t code; EvOrigEnd f code args]
  /\ trace s2 = trace (snd called) ++ map EvMarker (mm ++ mp ++ mi)
                  ++ EvFinish t :: settled_finish (length ps) ++ map EvMarker ml
  /\ idle __DEBUG_BUILD__ s2 = true.
Proof.
  cbv zeta. unfold env_state. rewrite call_wrapped_native_present.
  cbn [fst snd]. rewrite run_after_finishTransaction. cbn [trace].
  repeat split.
Qed.

(** What the replacement does.  The replacement installed by the wrap
    operation starts [finishTransaction] and drops its promise, then calls the original
    with the original arguments and returns what that returns.  With a handle
    and a native original, at the moment the replacement returns the promise
    of [finishTransaction] is still pending and [complete()] still sits in
    the immediate queue. *)
Theorem sentryWrappedEnd_fire_and_forget
    (transaction : option Transaction) (res : ServerResponse) (s : Loop)
    (t : Transaction) (f : nat) (code : Z) (args : list Value)
    (tr : list Event) (ps : list PState) (mm mp mi ml : list nat) :
  let res' := autoEndTransactionOnResponseEnd transaction res in
  let wrapped := autoEndTransactionOnResponseEnd (Some t)
                   (mkResponse code (NativeEnd f false)) in
  let called :=
    call_end (end_ wrapped) wrapped args (env_state tr ps mm mp mi ml) in
  call_end (end_ res') res' args s
  = (if __sentry_original__ (end_ res) then call_end (end_ res) res args s
     else call_end (end_ res) res args
            (snd (finishTransaction transaction res s)))
  /\ fst called = native_end f code args
  /\ trace (snd called) = tr ++ [EvSetHttpStatus t code; EvOrigEnd f code args]
  /\ promises (snd called) !! length ps = Some (Pending [])
  /\ immediates (snd called)
     = map TMarker mi ++ [TFinishImmediate t (S (length ps))].
Proof.
  cbv zeta. split; [apply call_wrapped |].
  unfold env_state. rewrite call_wrapped_native_present.
  cbn [fst snd trace promises immediates].
  repeat split. apply lookup_snoc2_fst.
Qed.

(** C8.  Without a handle, [finishTransaction] returns a promise that is
    already fulfilled, has no effect and queues nothing.  The replacement
    of a native [end] raises nothing of its own (its outcome is that of the
    original) and, up to the point where the loop is idle, the only effects
    are the original [end] and the callbacks of the surrounding program: no
    method of a tracing handle is called. *)
Theorem absent_handle_no_tracing
    (res : ServerResponse) (s : Loop)
    (f : nat) (code : Z) (args : list Value)
    (tr : list Event) (ps : list PState) (mm mp mi ml : list nat)
    (extra : nat) :
  let fin := finishTransaction None res s in
  let res' := autoEndTransactionOnResponseEnd None
                (mkResponse code (NativeEnd f false)) in
  let called := call_end (end_ res') res' args (env_state tr ps mm mp mi ml) in
  let s2 := run (fuel_env mm mp mi ml + extra) (snd called) in
  promises (snd fin) !! fst fin = Some (Settled (Fulfilled VUndefined))
  /\ effects (trace (snd fin)) = effects (trace s)
  /\ (microtasks (snd fin), poll (snd fin), immediates (snd fin), later (snd fin))
     = (microtasks s, poll s, immediates s, later s)
  /\ fst called = native_end f code args
  /\ effects (trace s2)
     = effects tr ++ EvOrigEnd f code args :: map EvMarker (mm ++ mp ++ mi ++ ml)
  /\ List.filter is_tracing (trace s2) = List.filter is_tracing tr
  /\ idle __DEBUG_BUILD__ s2 = true.
Proof.
  assert (Heff : forall l, effects (map EvMarker l) = map EvMarker l).
  { induction l; simpl; [done |]. unfold effects in *; simpl. by f_equal. }
  assert (Htr : forall l, List.filter is_tracing (map EvMarker l) = []).
  { induction l; simpl; auto. }
  cbv zeta. destruct s as [tr0 ps0 mc po im la].
  rewrite finishTransaction_absent. cbn [fst snd trace promises
    microtasks poll immediates later].
  split; [apply lookup_snoc |].
  split; [rewrite effects_app; simpl; by rewrite app_nil_r |].
  split; [done |].
  unfold env_state. rewrite call_wrapped_native_absent. cbn [fst snd].
  split; [done |].
  pose proof (run_env (tr ++ [EvSettled (length ps) (Fulfilled VUndefined);
                              EvOrigEnd f code args])
                (ps ++ [Settled (Fulfilled VUndefined)]) mm mp mi ml extra) as H.
  unfold env_state in H. rewrite H. cbn [trace].
  split; [| split; [| reflexivity]].
  - rewrite !effects_app, Heff. simpl. by rewrite <- app_assoc.
  - rewrite !List.filter_app, Htr. simpl. by rewrite !app_nil_r.
Qed.

(** ** [flushQueue] *)

Lemma log_logged args tr ps mc po im la :
  log __DEBUG_BUILD__ args (mkLoop tr ps mc po im la)
  = mkLoop (tr ++ logged __DEBUG_BUILD__ args) ps mc po im la.
Proof.
  unfold log, logged, emit. destruct __DEBUG_BUILD__; simpl; [done |].
  by rewrite app_nil_r.
Qed.

(** The rest of [flushQueue] once the awaited promise is settled with [o]. *)
Lemma flushQueue_resume_run ret o tr ps1 ps2 mc po im la :
  length ps1 = ret ->
  flushQueue_resume __DEBUG_BUILD__ ret o
    (mkLoop tr (ps1 ++ Pending [] :: ps2) mc po im la)
  = mkLoop (tr ++ flush_completion __DEBUG_BUILD__ o
               ++ [EvSettled ret (Fulfilled VUndefined)])
           (ps1 ++ Settled (Fulfilled VUndefined) :: ps2) mc po im la.
Proof.
  intros <-.
  assert (Hl : forall x : PState, (ps1 ++ x :: ps2) !! length ps1 = Some x)
    by (intros; by apply list_lookup_middle).
  assert (Hi : forall x y : PState,
             <[length ps1 := y]> (ps1 ++ x :: ps2) = ps1 ++ y :: ps2).
  { intros. replace (length ps1) with (length ps1 + 0)%nat by lia.
    by rewrite insert_app_r. }
  destruct o as [v | e]; unfold flushQueue_resume, flushQueue_catch;
    rewrite log_logged, (settle_pending _ _ []) by apply Hl;
    rewrite Hi; cbn [map flush_completion]; by rewrite app_nil_r, <- app_assoc.
Qed.

(** [flushQueue] and the loop after it, from a state in which the
    surrounding program has queued callbacks. *)
Lemma flushQueue_run tr ps (mm mp mi ml : list nat) extra :
  let s0 := env_state tr ps mm mp mi ml in
  let b := flush 2000 in
  fst (flushQueue s0) = length ps
  /\ run (fuel_flush b mm mp mi ml + extra) (snd (flushQueue s0))
     = mkLoop (tr ++ flushQueue_events __DEBUG_BUILD__ b (length ps) mm mp mi ml)
              (ps ++ flushQueue_store b (length ps)) [] [] [] [].
Proof.
  cbv zeta. unfold env_state, ResponseEnd.flushQueue, new_promise.
  cbn [promises trace microtasks poll immediates later].
  rewrite log_logged. unfold emit.
  cbn [promises trace microtasks poll immediates later].
  unfold fuel_flush, flushQueue_events.
  unfold flushQueue_store.
  destruct (flush 2000) as [e | o | o |].
  - (* flush throws *)
    split; [done |].
    unfold flushQueue_catch. rewrite log_logged.
    rewrite (settle_pending _ _ []) by apply lookup_snoc.
    rewrite insert_snoc. cbn [map snd]. rewrite app_nil_r.
    rewrite Nat.add_0_r.
    match goal with |- run _ (mkLoop ?tr0 ?ps0 _ _ _ _) = _ =>
      pose proof (run_env tr0 ps0 mm mp mi ml extra) as H end.
    unfold env_state in H. rewrite H. f_equal.
    rewrite <- !app_assoc. reflexivity.
  - (* flush returns a settled promise *)
    cbn [promises trace microtasks poll immediates later fst snd].
    split; [done |].
    unfold await. cbn [promises].
    rewrite length_app; cbn [length].
    replace (length ps + 1)%nat with (S (length ps)) by lia.
    rewrite <- app_assoc; cbn [app]. rewrite lookup_snoc2_snd.
    unfold queueMicrotasks; cbn [promises trace microtasks poll immediates later].
    unfold fuel_env.
    replace (length mm + length mp + length mi + length ml + 1 + extra)%nat
      with (length mm + (1 + (fuel_env [] mp mi ml + extra)))%nat
      by (unfold fuel_env; simpl; lia).
    rewrite run_plus, run_microtask_markers.
    rewrite run_plus. rewrite run_S.
    cbn [step microtasks poll immediates later trace promises run_task run].
    rewrite (flushQueue_resume_run (length ps) o _ ps [Settled o]) by done.
    match goal with |- run _ (mkLoop ?tr0 ?ps0 _ _ _ _) = _ =>
      pose proof (run_env tr0 ps0 [] mp mi ml extra) as H end.
    unfold env_state in H. cbn [map] in H. rewrite H. f_equal.
    rewrite <- !app_assoc. reflexivity.
  - (* flush returns a promise that is settled later *)
    cbn [promises trace microtasks poll immediates later fst snd].
    split; [done |].
    unfold scheduleLater, await.
    cbn [promises trace microtasks poll immediates later].
    rewrite length_app; cbn [length].
    replace (length ps + 1)%nat with (S (length ps)) by lia.
    rewrite <- app_assoc; cbn [app]. rewrite lookup_snoc2_snd.
    unfold set_promise; cbn [promises trace microtasks poll immediates later].
    rewrite insert_snoc2_snd. cbn [app].
    unfold fuel_env.
    replace (length mm + length mp + length mi + length ml + 2 + extra)%nat
      with (length mm + (length mp + (length mi + (length ml + (2 + extra)))))%nat
      by lia.
    rewrite run_plus.
    rewrite <- (app_nil_r (map TMarker mm)), run_microtask_markers.
    rewrite run_plus.
    rewrite <- (app_nil_r (map TMarker mp)), run_poll_markers.
    rewrite run_plus.
    rewrite <- (app_nil_r (map TMarker mi)), run_immediate_markers.
    rewrite run_plus, run_later_markers.
    rewrite run_plus, (run_S 1).
    cbn [step microtasks poll immediates later trace promises run_task].
    rewrite (settle_pending _ _ [KFlushQueue (length ps)])
      by apply lookup_snoc2_snd.
    rewrite insert_snoc2_snd. cbn [map app].
    rewrite (run_S 0).
    cbn [step microtasks poll immediates later trace promises run_task run].
    rewrite (flushQueue_resume_run (length ps) o _ ps [Settled o]) by done.
    rewrite run_idle by reflexivity. f_equal.
    rewrite !map_app, <- !app_assoc. reflexivity.
  - (* flush returns a promise that is never settled *)
    cbn [promises trace microtasks poll immediates later fst snd].
    split; [done |].
    unfold await. cbn [promises].
    rewrite length_app; cbn [length].
    replace (length ps + 1)%nat with (S (length ps)) by lia.
    rewrite <- app_assoc; cbn [app]. rewrite lookup_snoc2_snd.
    unfold set_promise; cbn [promises trace microtasks poll immediates later].
    rewrite insert_snoc2_snd. cbn [app].
    rewrite Nat.add_0_r.
    match goal with |- run _ (mkLoop ?tr0 ?ps0 _ _ _ _) = _ =>
      pose proof (run_env tr0 ps0 mm mp mi ml extra) as H end.
    unfold env_state in H. rewrite H. f_equal.
    rewrite <- !app_assoc. reflexivity.
Qed.

Lemma filter_markers (P : Event -> bool) (l : list nat) :
  (forall n, P (EvMarker n) = false) -> List.filter P (map EvMarker l) = [].
Proof. intros H. induction l; simpl; [done |]. by rewrite H. Qed.

Lemma filter_logged (P : Event -> bool) args :
  (forall a, P (EvLog a) = false) -> List.filter P (logged __DEBUG_BUILD__ args) = [].
Proof. intros H. unfold logged. destruct __DEBUG_BUILD__; simpl; [by rewrite H | done]. Qed.

Lemma filter_log_logged args :
  List.filter is_log (logged __DEBUG_BUILD__ args) = logged __DEBUG_BUILD__ args.
Proof. unfold logged. by destruct __DEBUG_BUILD__. Qed.

Lemma filter_flush_completion (P : Event -> bool) o :
  (forall a, P (EvLog a) = false) ->
  List.filter P (flush_completion __DEBUG_BUILD__ o) = [].
Proof. intros H. destruct o; simpl; by apply filter_logged. Qed.

(** C7, as the code has it.  Whatever the flush capability does, and for
    either value of the debug flag, the promise of [flushQueue] is never
    rejected, and a failure of the flush (an exception or a rejection) is
    seen only by [logger.log], and only in a debug build.  The promise ends
    up fulfilled whenever [flush] throws or its promise is settled, at once
    or in a later loop iteration; when the promise of [flush] is never
    settled, the promise of [flushQueue] stays pending and no closing line is
    logged. *)
Theorem flushQueue_never_rejects
    (tr : list Event) (ps : list PState) (mm mp mi ml : list nat)
    (extra : nat) :
  let s0 := env_state tr ps mm mp mi ml in
  let ret := fst (flushQueue s0) in
  let s2 := run (fuel_flush (flush 2000) mm mp mi ml + extra)
                (snd (flushQueue s0)) in
  promises s2 !! ret
  = Some (match flush 2000 with
          | FlushNever => Pending []
          | _ => Settled (Fulfilled VUndefined)
          end)
  /\ idle __DEBUG_BUILD__ s2 = true
  /\ (exists new,
        trace s2 = tr ++ new
        /\ List.filter (settles ret) new
           = match flush 2000 with
             | FlushNever => []
             | _ => [EvSettled ret (Fulfilled VUndefined)]
             end
        /\ List.filter is_log new
           = logged __DEBUG_BUILD__ flushing_msg
             ++ match flush 2000 with
                | FlushNever => []
                | _ => match flush_failure (flush 2000) with
                       | Some e => logged __DEBUG_BUILD__ (error_msg e)
                       | None => logged __DEBUG_BUILD__ done_msg
                       end
                end
        /\ (if __DEBUG_BUILD__ then True else List.filter is_log new = [])).
Proof.
  cbv zeta.
  destruct (flushQueue_run tr ps mm mp mi ml extra) as [Hret Hrun].
  cbv zeta in Hret, Hrun. rewrite Hret, Hrun. cbn [promises trace].
  split.
  { unfold flushQueue_store.
    destruct (flush 2000); by apply list_lookup_middle. }
  split; [reflexivity |].
  exists (flushQueue_events __DEBUG_BUILD__ (flush 2000) (length ps) mm mp mi ml).
  split; [reflexivity |].
  assert (Hs : forall o,
    List.filter (settles (length ps)) [EvSettled (S (length ps)) o] = []).
  { intros o. simpl.
    destruct (Nat.eqb_spec (length ps) (S (length ps))); [lia | done]. }
  assert (Hlog : List.filter is_log
      (flushQueue_events __DEBUG_BUILD__ (flush 2000) (length ps) mm mp mi ml)
    = logged __DEBUG_BUILD__ flushing_msg
      ++ match flush 2000 with
         | FlushNever => []
         | _ => match flush_failure (flush 2000) with
                | Some e => logged __DEBUG_BUILD__ (error_msg e)
                | None => logged __DEBUG_BUILD__ done_msg
                end
         end).
  { unfold flushQueue_events.
    destruct (flush 2000) as [e | [v | e] | [v | e] |];
      cbn [flush_failure flush_completion];
      rewrite !List.filter_app, ?filter_log_logged, ?filter_markers by done;
      simpl; by rewrite ?app_nil_r. }
  split; [| split; [exact Hlog |]].
  - unfold flushQueue_events.
    destruct (flush 2000) as [e | o | o |];
      rewrite !List.filter_app, ?filter_logged, ?filter_flush_completion,
        ?filter_markers, ?Hs by done;
      simpl; rewrite ?Nat.eqb_refl; by rewrite ?app_nil_r.
  - rewrite Hlog. unfold logged.
    destruct __DEBUG_BUILD__; [done |].
    destruct (flush 2000); try done; by destruct (flush_failure _).
Qed.

(** The synchronous part of [flushQueue]. *)
Lemma flushQueue_sync_trace tr ps mc po im la :
  trace (snd (flushQueue (mkLoop tr ps mc po im la)))
  = tr ++ logged __DEBUG_BUILD__ flushing_msg ++ [EvFlush 2000]
      ++ match flush 2000 with
         | FlushThrows e =>
             logged __DEBUG_BUILD__ (error_msg e)
             ++ [EvSettled (length ps) (Fulfilled VUndefined)]
         | _ => []
         end.
Proof.
  unfold ResponseEnd.flushQueue, new_promise.
  cbn [promises trace microtasks poll immediates later].
  rewrite log_logged. unfold emit.
  cbn [promises trace microtasks poll immediates later].
  destruct (flush 2000) as [e | o | o |].
  - unfold flushQueue_catch. rewrite log_logged.
    rewrite (settle_pending _ _ []) by apply lookup_snoc.
    cbn [snd trace]. by rewrite <- !app_assoc.
  - cbn [snd promises trace microtasks poll immediates later].
    unfold await. cbn [promises].
    rewrite length_app; cbn [length].
    replace (length ps + 1)%nat with (S (length ps)) by lia.
    rewrite <- app_assoc; cbn [app]. rewrite lookup_snoc2_snd.
    cbn [queueMicrotasks trace]. by rewrite <- !app_assoc.
  - cbn [snd promises trace microtasks poll immediates later].
    unfold scheduleLater, await.
    cbn [promises trace microtasks poll immediates later].
    rewrite length_app; cbn [length].
    replace (length ps + 1)%nat with (S (length ps)) by lia.
    rewrite <- app_assoc; cbn [app]. rewrite lookup_snoc2_snd.
    cbn [set_promise trace]. by rewrite <- !app_assoc.
  - cbn [snd promises trace microtasks poll immediates later].
    unfold await.
    cbn [promises trace microtasks poll immediates later].
    rewrite length_app; cbn [length].
    replace (length ps + 1)%nat with (S (length ps)) by lia.
    rewrite <- app_assoc; cbn [app]. rewrite lookup_snoc2_snd.
    cbn [set_promise trace]. by rewrite <- !app_assoc.
Qed.

(** C9.  Every call of [flushQueue] calls the flush capability exactly once,
    before it returns, with the timeout 2000: the capability is asked about
    no other timeout, and no further call follows while the loop runs. *)
Theorem flushQueue_flushes_once_with_2000
    (tr : list Event) (ps : list PState) (mm mp mi ml : list nat)
    (extra : nat) :
  let s0 := env_state tr ps mm mp mi ml in
  let s2 := run (fuel_flush (flush 2000) mm mp mi ml + extra)
                (snd (flushQueue s0)) in
  List.filter is_flush (trace (snd (flushQueue s0)))
  = List.filter is_flush tr ++ [EvFlush 2000]
  /\ List.filter is_flush (trace s2) = List.filter is_flush tr ++ [EvFlush 2000]
  /\ idle __DEBUG_BUILD__ s2 = true
  /\ ResponseEnd.flushQueue __DEBUG_BUILD__ (fun _ => flush 2000) s0 = flushQueue s0.
Proof.
  cbv zeta. split; [| split; [| split]].
  - unfold env_state. rewrite flushQueue_sync_trace.
    rewrite !List.filter_app, (filter_logged is_flush) by done.
    destruct (flush 2000); rewrite ?List.filter_app, ?filter_logged by done;
      simpl; by rewrite ?app_nil_r.
  - destruct (flushQueue_run tr ps mm mp mi ml extra) as [_ Hrun].
    cbv zeta in Hrun. rewrite Hrun. cbn [trace]. unfold flushQueue_events.
    destruct (flush 2000) as [e | o | o |];
      rewrite !List.filter_app, ?filter_logged, ?filter_flush_completion,
        ?filter_markers by done;
      simpl; by rewrite ?app_nil_r.
  - destruct (flushQueue_run tr ps mm mp mi ml extra) as [_ Hrun].
    cbv zeta in Hrun. by rewrite Hrun.
  - reflexivity.
Qed.

(** ** Further properties of the wrapped [end] *)

Lemma filter_tracing_finish t ret (ml : list nat) :
  List.filter is_tracing (EvFinish t :: settled_finish ret ++ map EvMarker ml)
  = [EvFinish t].
Proof. simpl. by rewrite filter_markers. Qed.

(** X1.  Only the first wrap counts.  Once the wrap operation has run on a
    response with a native [end], further wrap calls, with whatever handles,
    change nothing: when [end] is called, the handle of the first wrap (if
    that had one) gets its status and its [finish()], and no method of any
    other handle is called.  A first wrap without a handle thus keeps every
    later handle from being finished. *)
Theorem later_handles_are_ignored
    (first : option Transaction) (ts : list (option Transaction))
    (f : nat) (code : Z) (args : list Value)
    (tr : list Event) (ps : list PState) (mm mp mi ml : list nat)
    (extra : nat) :
  let res := wrap_many (first :: ts) (mkResponse code (NativeEnd f false)) in
  let called := call_end (end_ res) res args (env_state tr ps mm mp mi ml) in
  let fuel := match first with
              | Some _ => fuel_finish mm mp mi ml
              | None => fuel_env mm mp mi ml
              end in
  let s2 := run (fuel + extra) (snd called) in
  List.filter is_tracing (trace s2)
  = List.filter is_tracing tr
    ++ match first with
       | Some t1 => [EvSetHttpStatus t1 code; EvFinish t1]
       | None => []
       end
  /\ idle __DEBUG_BUILD__ s2 = true.
Proof.
  cbv zeta.
  assert (Hmany : wrap_many (first :: ts) (mkResponse code (NativeEnd f false))
                  = autoEndTransactionOnResponseEnd first
                      (mkResponse code (NativeEnd f false))).
  { unfold wrap_many; simpl. apply (wrap_many_noop ts). reflexivity. }
  rewrite Hmany. unfold env_state. destruct first as [t1|].
  - rewrite call_wrapped_native_present.
    cbn [snd]. rewrite run_after_finishTransaction. cbn [trace].
    split; [| reflexivity].
    rewrite !List.filter_app, filter_tracing_finish, !filter_markers by done.
    simpl. by rewrite <- app_assoc.
  - rewrite call_wrapped_native_absent. cbn [snd].
    match goal with |- context [mkLoop ?T ?P _ _ _ _] =>
      pose proof (run_env T P mm mp mi ml extra) as H end.
    unfold env_state in H. rewrite H. cbn [trace].
    split; [| reflexivity].
    rewrite !List.filter_app, !filter_markers by done.
    simpl. by rewrite ?app_nil_r.
Qed.

(** X2.  A response whose [end] already carries [__sentry_original__] (put
    there by other instrumentation) is left alone by the wrap operation, and
    the handle passed to it is never used: calling [end] calls the native
    function and no method of a tracing handle, however long the loop runs. *)
Theorem marked_end_is_never_traced
    (transaction : option Transaction)
    (f : nat) (code : Z) (args : list Value)
    (tr : list Event) (ps : list PState) (mm mp mi ml : list nat)
    (extra : nat) :
  let res := autoEndTransactionOnResponseEnd transaction
               (mkResponse code (NativeEnd f true)) in
  let called := call_end (end_ res) res args (env_state tr ps mm mp mi ml) in
  let s2 := run (fuel_env mm mp mi ml + extra) (snd called) in
  fst called = native_end f code args
  /\ trace s2 = tr ++ EvOrigEnd f code args :: map EvMarker (mm ++ mp ++ mi ++ ml)
  /\ List.filter is_tracing (trace s2) = List.filter is_tracing tr
  /\ idle __DEBUG_BUILD__ s2 = true.
Proof.
  cbv zeta. cbn [autoEndTransactionOnResponseEnd __sentry_original__ end_ negb
                 call_end statusCode fst snd].
  unfold emit, env_state; cbn [trace promises microtasks poll immediates later].
  pose proof (run_env (tr ++ [EvOrigEnd f code args]) ps mm mp mi ml extra) as H.
  unfold env_state in H. rewrite H. cbn [trace].
  split; [reflexivity |]. split; [by rewrite <- app_assoc |].
  split; [| reflexivity].
  rewrite !List.filter_app, filter_markers by done. simpl.
  by rewrite !app_nil_r.
Qed.

(** X3.  The status recorded on the handle is the one the response has when
    [end] is called, not the one it had when the wrapper was installed: the
    replacement reads [this.statusCode] at the call. *)
Theorem status_is_read_when_end_is_called
    (t : Transaction) (f : nat) (code0 code1 : Z) (args : list Value)
    (tr : list Event) (ps : list PState) (mm mp mi ml : list nat)
    (extra : nat) :
  let res := autoEndTransactionOnResponseEnd (Some t)
               (mkResponse code0 (NativeEnd f false)) in
  let this := mkResponse code1 (end_ res) in
  let called := call_end (end_ this) this args (env_state tr ps mm mp mi ml) in
  let s2 := run (fuel_finish mm mp mi ml + extra) (snd called) in
  fst called = native_end f code1 args
  /\ trace (snd called) = tr ++ [EvSetHttpStatus t code1; EvOrigEnd f code1 args]
  /\ List.filter is_tracing (trace s2)
     = List.filter is_tracing tr ++ [EvSetHttpStatus t code1; EvFinish t].
Proof.
  cbv zeta.
  pose proof (call_wrapped_native_present t f code1 args tr ps
                (map TMarker mm) (map TMarker mp) (map TMarker mi)
                (map TMarker ml)) as H.
  cbv zeta in H. unfold env_state.
  change (end_ (mkResponse code1
            (end_ (autoEndTransactionOnResponseEnd (Some t)
                     (mkResponse code0 (NativeEnd f false))))))
    with (end_ (autoEndTransactionOnResponseEnd (Some t)
                  (mkResponse code1 (NativeEnd f false)))).
  rewrite (call_end_statusCode _ _
             (autoEndTransactionOnResponseEnd (Some t)
                (mkResponse code1 (NativeEnd f false)))) by reflexivity.
  rewrite H. cbn [fst snd]. rewrite run_after_finishTransaction. cbn [trace].
  split; [reflexivity |]. split; [reflexivity |].
  rewrite !List.filter_app, filter_tracing_finish, !filter_markers by done.
  simpl. by rewrite <- app_assoc.
Qed.

(** ** [end] called more than once *)

Lemma lookup_mid_fst (pre rest : list PState) a b :
  (pre ++ a :: b :: rest) !! length pre = Some a.
Proof. by apply list_lookup_middle. Qed.

Lemma lookup_mid_snd (pre rest : list PState) a b :
  (pre ++ a :: b :: rest) !! S (length pre) = Some b.
Proof.
  replace (pre ++ a :: b :: rest) with ((pre ++ [a]) ++ b :: rest)
    by by rewrite <- app_assoc.
  apply list_lookup_middle. rewrite length_app. simpl. lia.
Qed.

Lemma insert_mid_fst (pre rest : list PState) a b x :
  <[length pre := x]> (pre ++ a :: b :: rest) = pre ++ x :: b :: rest.
Proof.
  replace (length pre) with (length pre + 0)%nat by lia.
  by rewrite insert_app_r.
Qed.

Lemma insert_mid_snd (pre rest : list PState) a b x :
  <[S (length pre) := x]> (pre ++ a :: b :: rest) = pre ++ a :: x :: rest.
Proof.
  replace (S (length pre)) with (length pre + 1)%nat by lia.
  by rewrite insert_app_r.
Qed.

(** The synchronous part of [n] calls of the replacement. *)
Lemma call_end_times_present t f code args n :
  forall tr ps mc po im la,
    let res := autoEndTransactionOnResponseEnd (Some t)
                 (mkResponse code (NativeEnd f false)) in
    call_end_times native_end n (end_ res) res args (mkLoop tr ps mc po im la)
    = mkLoop (tr ++ wrapped_calls t f code args n)
             (ps ++ finish_store (length ps) n)
             mc po (im ++ finish_immediates t (length ps) n) la.
Proof.
  induction n as [|n IH]; intros tr ps mc po im la; cbv zeta.
  - simpl. by rewrite !app_nil_r.
  - cbn [call_end_times]. rewrite call_wrapped_native_present. cbn [snd].
    cbv zeta in IH. rewrite IH.
    rewrite length_app. cbn [length].
    replace (length ps + 2)%nat with (S (S (length ps))) by lia.
    cbn [wrapped_calls finish_store finish_immediates].
    f_equal; by rewrite <- app_assoc.
Qed.

(** The deferred callbacks of [n] calls run one after the other; each is
    followed at once by the resumption of its async function. *)
Lemma run_finish_many t n :
  forall tr pre la,
    run (2 * n) (mkLoop tr (pre ++ finish_store (length pre) n) [] []
                        (finish_immediates t (length pre) n) la)
    = mkLoop (tr ++ finish_events t (length pre) n)
             (pre ++ repeat (Settled (Fulfilled VUndefined)) (2 * n))
             [] [] [] la.
Proof.
  induction n as [|n IH]; intros tr pre la.
  - simpl. by rewrite !app_nil_r.
  - replace (2 * S n)%nat with (2 + 2 * n)%nat by lia.
    rewrite run_plus.
    cbn [finish_store finish_immediates finish_events].
    rewrite (run_S 1).
    cbn [step microtasks poll immediates later trace promises run_task].
    unfold emit; cbn [microtasks poll immediates later trace promises].
    rewrite (settle_pending _ _ [KFinishTransaction (length pre)])
      by apply lookup_mid_snd.
    rewrite insert_mid_snd; cbn [map app].
    rewrite (run_S 0).
    cbn [step microtasks poll immediates later trace promises run_task run].
    rewrite (settle_pending _ _ []) by apply lookup_mid_fst.
    rewrite insert_mid_fst; cbn [map app].
    replace (pre ++ Settled (Fulfilled VUndefined)
                 :: Settled (Fulfilled VUndefined)
                 :: finish_store (S (S (length pre))) n)
      with ((pre ++ [Settled (Fulfilled VUndefined);
                     Settled (Fulfilled VUndefined)])
            ++ finish_store
                 (length (pre ++ [Settled (Fulfilled VUndefined);
                                  Settled (Fulfilled VUndefined)])) n).
    2:{ rewrite length_app. cbn [length].
        replace (length pre + 2)%nat with (S (S (length pre))) by lia.
        by rewrite <- app_assoc. }
    replace (finish_immediates t (S (S (length pre))) n)
      with (finish_immediates t
              (length (pre ++ [Settled (Fulfilled VUndefined);
                               Settled (Fulfilled VUndefined)])) n).
    2:{ rewrite length_app. cbn [length].
        by replace (length pre + 2)%nat with (S (S (length pre))) by lia. }
    rewrite IH. rewrite length_app. cbn [length].
    replace (length pre + 2)%nat with (S (S (length pre))) by lia.
    f_equal.
    + rewrite <- !app_assoc. reflexivity.
    + rewrite <- app_assoc. reflexivity.
Qed.

Lemma filter_tracing_wrapped_calls t f code args n :
  List.filter is_tracing (wrapped_calls t f code args n)
  = repeat (EvSetHttpStatus t code) n.
Proof. induction n as [|n IH]; simpl; [done |]. by rewrite IH. Qed.

Lemma filter_orig_wrapped_calls t f code args n :
  List.filter is_orig_end (wrapped_calls t f code args n)
  = repeat (EvOrigEnd f code args) n.
Proof. induction n as [|n IH]; simpl; [done |]. by rewrite IH. Qed.

Lemma filter_tracing_finish_events t base n :
  List.filter is_tracing (finish_events t base n) = repeat (EvFinish t) n.
Proof.
  revert base. induction n as [|n IH]; intros base; simpl; [done |].
  by rewrite IH.
Qed.

Lemma filter_orig_finish_events t base n :
  List.filter is_orig_end (finish_events t base n) = [].
Proof.
  revert base. induction n as [|n IH]; intros base; simpl; [done |]. apply IH.
Qed.

(** X4.  The replacement has no guard against a second call: every call of
    [end] on a wrapped response calls the original again, records the status
    again and defers a further [complete()].  After [n] calls on a response
    with handle [t], the handle has seen [n] times [setHttpStatus] and then
    [n] times [finish()], and the native [end] has run [n] times. *)
Theorem every_end_call_finishes_again
    (t : Transaction) (f : nat) (code : Z) (args : list Value) (n : nat)
    (tr : list Event) (ps : list PState) (mm mp mi ml : list nat)
    (extra : nat) :
  let res := autoEndTransactionOnResponseEnd (Some t)
               (mkResponse code (NativeEnd f false)) in
  let s1 := call_end_times native_end n (end_ res) res args
              (env_state tr ps mm mp mi ml) in
  let s2 := run (length mm + length mp + length mi + 2 * n + length ml + extra) s1 in
  trace s1 = tr ++ wrapped_calls t f code args n
  /\ List.filter is_tracing (trace s2)
     = List.filter is_tracing tr
       ++ repeat (EvSetHttpStatus t code) n ++ repeat (EvFinish t) n
  /\ List.filter is_orig_end (trace s2)
     = List.filter is_orig_end tr ++ repeat (EvOrigEnd f code args) n
  /\ idle __DEBUG_BUILD__ s2 = true.
Proof.
  cbv zeta. unfold env_state.
  pose proof (call_end_times_present t f code args n tr ps
                (map TMarker mm) (map TMarker mp) (map TMarker mi)
                (map TMarker ml)) as H.
  cbv zeta in H. rewrite H. cbn [trace].
  split; [reflexivity |].
  rewrite !run_plus.
  rewrite <- (app_nil_r (map TMarker mm)), run_microtask_markers.
  rewrite <- (app_nil_r (map TMarker mp)), run_poll_markers.
  rewrite run_immediate_markers, run_finish_many.
  rewrite <- (app_nil_r (map TMarker ml)), run_later_markers.
  rewrite run_idle by reflexivity. cbn [trace].
  split; [| split; [| reflexivity]].
  - rewrite !List.filter_app, filter_tracing_wrapped_calls,
      filter_tracing_finish_events, !filter_markers by done.
    simpl. by rewrite ?app_nil_r, <- ?app_assoc.
  - rewrite !List.filter_app, filter_orig_wrapped_calls,
      filter_orig_finish_events, !filter_markers by done.
    simpl. by rewrite ?app_nil_r.
Qed.

(** ** [finishTransaction] and [flushQueue] together *)

(** The state in which [flushQueue] returns. *)
Lemma flushQueue_sync tr ps mc po im la :
  flushQueue (mkLoop tr ps mc po im la)
  = (length ps,
     match flush 2000 with
     | FlushThrows e =>
         mkLoop (tr ++ logged __DEBUG_BUILD__ flushing_msg ++ [EvFlush 2000]
                    ++ logged __DEBUG_BUILD__ (error_msg e)
                    ++ [EvSettled (length ps) (Fulfilled VUndefined)])
                (ps ++ [Settled (Fulfilled VUndefined)]) mc po im la
     | FlushSettled o =>
         mkLoop (tr ++ logged __DEBUG_BUILD__ flushing_msg ++ [EvFlush 2000])
                (ps ++ [Pending []; Settled o])
                (mc ++ [TResume (KFlushQueue (length ps)) o]) po im la
     | FlushLater o =>
         mkLoop (tr ++ logged __DEBUG_BUILD__ flushing_msg ++ [EvFlush 2000])
                (ps ++ [Pending []; Pending [KFlushQueue (length ps)]])
                mc po im (la ++ [TSettle (S (length ps)) o])
     | FlushNever =>
         mkLoop (tr ++ logged __DEBUG_BUILD__ flushing_msg ++ [EvFlush 2000])
                (ps ++ [Pending []; Pending [KFlushQueue (length ps)]])
                mc po im la
     end).
Proof.
  unfold ResponseEnd.flushQueue, new_promise.
  cbn [promises trace microtasks poll immediates later].
  rewrite log_logged. unfold emit.
  cbn [promises trace microtasks poll immediates later].
  destruct (flush 2000) as [e | o | o |].
  - unfold flushQueue_catch. rewrite log_logged.
    rewrite (settle_pending _ _ []) by apply lookup_snoc.
    rewrite insert_snoc. cbn [map]. rewrite app_nil_r.
    by rewrite <- !app_assoc.
  - cbn [promises trace microtasks poll immediates later].
    unfold await. cbn [promises].
    rewrite length_app; cbn [length].
    replace (length ps + 1)%nat with (S (length ps)) by lia.
    rewrite <- app_assoc; cbn [app]. rewrite lookup_snoc2_snd.
    unfold queueMicrotasks; cbn [promises trace microtasks poll immediates later].
    by rewrite <- !app_assoc.
  - cbn [promises trace microtasks poll immediates later].
    unfold scheduleLater, await.
    cbn [promises trace microtasks poll immediates later].
    rewrite length_app; cbn [length].
    replace (length ps + 1)%nat with (S (length ps)) by lia.
    rewrite <- app_assoc; cbn [app]. rewrite lookup_snoc2_snd.
    unfold set_promise; cbn [promises trace microtasks poll immediates later].
    rewrite insert_snoc2_snd. by rewrite <- !app_assoc.
  - cbn [promises trace microtasks poll immediates later].
    unfold await.
    cbn [promises trace microtasks poll immediates later].
    rewrite length_app; cbn [length].
    replace (length ps + 1)%nat with (S (length ps)) by lia.
    rewrite <- app_assoc; cbn [app]. rewrite lookup_snoc2_snd.
    unfold set_promise; cbn [promises trace microtasks poll immediates later].
    rewrite insert_snoc2_snd. by rewrite <- !app_assoc.
Qed.

(** X5.  [flushQueue] is done when it returns only if [flush] throws: then
    its promise is already fulfilled.  Whenever [flush] returns a promise,
    even one that is settled already, the promise of [flushQueue] is still
    pending at the return, and nothing but the [flush] call and the first
    log line has happened. *)
Theorem flushQueue_pending_unless_flush_throws (s : Loop) :
  let called := flushQueue s in
  promises (snd called) !! fst called
  = Some (match flush 2000 with
          | FlushThrows _ => Settled (Fulfilled VUndefined)
          | _ => Pending []
          end)
  /\ effects (trace (snd called))
     = effects (trace s) ++ logged __DEBUG_BUILD__ flushing_msg ++ [EvFlush 2000]
       ++ match flush 2000 with
          | FlushThrows e => logged __DEBUG_BUILD__ (error_msg e)
          | _ => []
          end.
Proof.
  assert (Hl : forall args,
             effects (logged __DEBUG_BUILD__ args) = logged __DEBUG_BUILD__ args).
  { intros. unfold logged. by destruct __DEBUG_BUILD__. }
  cbv zeta. destruct s as [tr ps mc po im la]. rewrite flushQueue_sync.
  cbn [fst snd]. destruct (flush 2000) as [e | o | o |]; cbn [promises trace].
  - split; [apply lookup_snoc |].
    rewrite !effects_app, !Hl. simpl. by rewrite ?app_nil_r.
  - split; [apply lookup_snoc2_fst |].
    rewrite !effects_app, !Hl. simpl. by rewrite ?app_nil_r.
  - split; [apply lookup_snoc2_fst |].
    rewrite !effects_app, !Hl. simpl. by rewrite ?app_nil_r.
  - split; [apply lookup_snoc2_fst |].
    rewrite !effects_app, !Hl. simpl. by rewrite ?app_nil_r.
Qed.

Lemma filter_ff_flushQueue_events b ret (mm mp mi ml : list nat) :
  List.filter is_finish_or_flush
    (flushQueue_events __DEBUG_BUILD__ b ret mm mp mi ml)
  = [EvFlush 2000].
Proof.
  unfold flushQueue_events.
  destruct b as [e | o | o |];
    rewrite !List.filter_app, ?filter_logged, ?filter_flush_completion,
      ?filter_markers by done;
    simpl; by rewrite ?app_nil_r.
Qed.

(** X6.  A caller that lets the loop run until the promise of
    [finishTransaction] is fulfilled and calls [flushQueue] only then gets
    [finish()] before [flush(2000)]. *)
Theorem flush_after_finished_transaction
    (t : Transaction) (res : ServerResponse) (tr : list Event)
    (ps : list PState) (mm mp mi ml : list nat) (extra extra' : nat) :
  let fin := finishTransaction (Some t) res (env_state tr ps mm mp mi ml) in
  let s2 := run (fuel_finish mm mp mi ml + extra) (snd fin) in
  let s3 := snd (flushQueue s2) in
  let s4 := run (fuel_flush (flush 2000) [] [] [] [] + extra') s3 in
  promises s2 !! fst fin = Some (Settled (Fulfilled VUndefined))
  /\ List.filter is_finish_or_flush (trace s4)
     = List.filter is_finish_or_flush tr ++ [EvFinish t; EvFlush 2000]
  /\ idle __DEBUG_BUILD__ s4 = true.
Proof.
  cbv zeta. unfold env_state. rewrite finishTransaction_present.
  cbn [fst snd]. rewrite run_after_finishTransaction.
  split; [apply lookup_snoc2_fst |].
  match goal with |- context [flushQueue (mkLoop ?T ?P [] [] [] [])] =>
    destruct (flushQueue_run T P [] [] [] [] extra') as [_ Hrun] end.
  cbv zeta in Hrun. unfold env_state in Hrun. cbn [map] in Hrun.
  rewrite Hrun. cbn [trace].
  split; [| reflexivity].
  rewrite !List.filter_app, filter_ff_flushQueue_events, !filter_markers by done.
  simpl. rewrite filter_markers by done.
  by rewrite ?app_nil_r, <- ?app_assoc.
Qed.

(** One deferred callback whose promises sit in the middle of the store. *)
Lemma run_finish_immediate_mid t tr pre rest la :
  run 2 (mkLoop tr
           (pre ++ Pending [] :: Pending [KFinishTransaction (length pre)] :: rest)
           [] [] [TFinishImmediate t (S (length pre))] la)
  = mkLoop (tr ++ EvFinish t :: settled_finish (length pre))
           (pre ++ Settled (Fulfilled VUndefined)
                :: Settled (Fulfilled VUndefined) :: rest)
           [] [] [] la.
Proof.
  rewrite (run_S 1).
  cbn [step microtasks poll immediates later trace promises run_task].
  unfold emit; cbn [microtasks poll immediates later trace promises].
  rewrite (settle_pending _ _ [KFinishTransaction (length pre)])
    by apply lookup_mid_snd.
  rewrite insert_mid_snd; cbn [map app].
  rewrite (run_S 0).
  cbn [step microtasks poll immediates later trace promises run_task run].
  rewrite (settle_pending _ _ []) by apply lookup_mid_fst.
  rewrite insert_mid_fst; cbn [map app].
  by rewrite <- !app_assoc.
Qed.

Lemma filter_ff_logged args :
  List.filter is_finish_or_flush (logged __DEBUG_BUILD__ args) = [].
Proof. by apply filter_logged. Qed.

Lemma filter_ff_completion o :
  List.filter is_finish_or_flush (flush_completion __DEBUG_BUILD__ o) = [].
Proof. by apply filter_flush_completion. Qed.

Ltac filter_ff :=
  repeat first
    [ rewrite List.filter_app
    | rewrite filter_ff_logged
    | rewrite filter_ff_completion
    | rewrite filter_markers by done
    | progress cbn [List.filter is_finish_or_flush app settled_finish] ];
  rewrite ?app_nil_r, <- ?app_assoc; cbn [app]; try reflexivity.

(** X7.  A caller that calls [flushQueue] right after [finishTransaction],
    without waiting for its promise, gets [flush(2000)] before [finish()]:
    when both calls have returned the flush has been started and [finish()]
    is still to come, whatever the flush capability does. *)
Theorem flush_without_waiting_precedes_finish
    (t : Transaction) (res : ServerResponse) (tr : list Event)
    (ps : list PState) (mm mp mi ml : list nat) (extra : nat) :
  let s1 := snd (finishTransaction (Some t) res (env_state tr ps mm mp mi ml)) in
  let s2 := snd (flushQueue s1) in
  let s3 := run (fuel_finish mm mp mi ml
                 + match flush 2000 with
                   | FlushThrows _ => 0
                   | FlushSettled _ => 1
                   | FlushLater _ => 2
                   | FlushNever => 0
                   end + extra) s2 in
  List.filter is_finish_or_flush (trace s2)
  = List.filter is_finish_or_flush tr ++ [EvFlush 2000]
  /\ List.filter is_finish_or_flush (trace s3)
     = List.filter is_finish_or_flush tr ++ [EvFlush 2000; EvFinish t]
  /\ idle __DEBUG_BUILD__ s3 = true.
Proof.
  cbv zeta. unfold env_state, fuel_finish.
  rewrite finishTransaction_present. cbn [snd].
  rewrite flushQueue_sync. cbn [snd].
  assert (Hlen : forall a b : PState,
             length (ps ++ [a; b]) = S (S (length ps))).
  { intros. rewrite length_app. simpl. lia. }
  destruct (flush 2000) as [e | o | o |].
  - (* flush throws *)
    split.
    { cbn [trace]. filter_ff. }
    rewrite <- (app_assoc ps); cbn [app].
    replace (length mm + length mp + length mi + 2 + length ml + 0 + extra)%nat
      with (length mm + (length mp + (length mi + (2 + (length ml + extra)))))%nat
      by lia.
    rewrite run_plus.
    rewrite <- (app_nil_r (map TMarker mm)), run_microtask_markers.
    rewrite run_plus.
    rewrite <- (app_nil_r (map TMarker mp)), run_poll_markers.
    rewrite run_plus, run_immediate_markers.
    rewrite run_plus, run_finish_immediate_mid.
    rewrite run_plus.
    rewrite <- (app_nil_r (map TMarker ml)), run_later_markers.
    rewrite run_idle by reflexivity. cbn [trace].
    split; [| reflexivity].
    filter_ff.
  - (* flush returns a settled promise *)
    split.
    { cbn [trace]. filter_ff. }
    replace (length mm + length mp + length mi + 2 + length ml + 1 + extra)%nat
      with (length mm + (1 + (length mp + (length mi
              + (2 + (length ml + extra))))))%nat by lia.
    rewrite run_plus, run_microtask_markers.
    rewrite run_plus, (run_S 0).
    cbn [step microtasks poll immediates later trace promises run_task run].
    rewrite (flushQueue_resume_run _ o _ _ [Settled o]) by reflexivity.
    rewrite <- (app_assoc ps); cbn [app].
    rewrite run_plus.
    rewrite <- (app_nil_r (map TMarker mp)), run_poll_markers.
    rewrite run_plus, run_immediate_markers.
    rewrite run_plus, run_finish_immediate_mid.
    rewrite run_plus.
    rewrite <- (app_nil_r (map TMarker ml)), run_later_markers.
    rewrite run_idle by reflexivity. cbn [trace].
    split; [| reflexivity].
    filter_ff.
  - (* flush returns a promise that is settled later *)
    split.
    { cbn [trace]. filter_ff. }
    replace (length mm + length mp + length mi + 2 + length ml + 2 + extra)%nat
      with (length mm + (length mp + (length mi
              + (2 + (length ml + (1 + (1 + extra)))))))%nat by lia.
    rewrite <- (app_assoc ps); cbn [app].
    rewrite run_plus.
    rewrite <- (app_nil_r (map TMarker mm)), run_microtask_markers.
    rewrite run_plus.
    rewrite <- (app_nil_r (map TMarker mp)), run_poll_markers.
    rewrite run_plus, run_immediate_markers.
    rewrite run_plus, run_finish_immediate_mid.
    rewrite run_plus, run_later_markers.
    rewrite run_plus, (run_S 0).
    cbn [step microtasks poll immediates later trace promises run_task run].
    rewrite !Hlen.
    replace (ps ++ [Settled (Fulfilled VUndefined); Settled (Fulfilled VUndefined);
                    Pending []; Pending [KFlushQueue (S (S (length ps)))]])
      with ((ps ++ [Settled (Fulfilled VUndefined);
                    Settled (Fulfilled VUndefined)])
            ++ [Pending []; Pending [KFlushQueue (S (S (length ps)))]])
      by (by rewrite <- app_assoc).
    rewrite <- (Hlen (Settled (Fulfilled VUndefined))
                     (Settled (Fulfilled VUndefined))).
    rewrite (settle_pending _ _
               [KFlushQueue (length (ps ++ [Settled (Fulfilled VUndefined);
                                            Settled (Fulfilled VUndefined)]))])
      by apply lookup_snoc2_snd.
    rewrite insert_snoc2_snd. cbn [map app].
    rewrite run_plus, (run_S 0).
    cbn [step microtasks poll immediates later trace promises run_task run].
    rewrite (flushQueue_resume_run _ o _ _ [Settled o]) by reflexivity.
    rewrite run_idle by reflexivity. cbn [trace].
    split; [| reflexivity].
    filter_ff.
  - (* flush returns a promise that is never settled *)
    split.
    { cbn [trace]. filter_ff. }
    rewrite <- (app_assoc ps); cbn [app].
    replace (length mm + length mp + length mi + 2 + length ml + 0 + extra)%nat
      with (length mm + (length mp + (length mi + (2 + (length ml + extra)))))%nat
      by lia.
    rewrite run_plus.
    rewrite <- (app_nil_r (map TMarker mm)), run_microtask_markers.
    rewrite run_plus.
    rewrite <- (app_nil_r (map TMarker mp)), run_poll_markers.
    rewrite run_plus, run_immediate_markers.
    rewrite run_plus, run_finish_immediate_mid.
    rewrite run_plus.
    rewrite <- (app_nil_r (map TMarker ml)), run_later_markers.
    rewrite run_idle by reflexivity. cbn [trace].
    split; [| reflexivity].
    filter_ff.
Qed.

(** X8.  The two functions keep to their own business.  [finishTransaction],
    with or without a handle, never calls [flush] and never logs;
    [flushQueue], whatever the flush capability does, never calls a method of
    a tracing handle. *)
Theorem finish_and_flush_are_separate
    (transaction : option Transaction) (res : ServerResponse)
    (tr : list Event) (ps : list PState) (mm mp mi ml : list nat)
    (extra : nat) :
  let s0 := env_state tr ps mm mp mi ml in
  let fuel := match transaction with
              | Some _ => fuel_finish mm mp mi ml
              | None => fuel_env mm mp mi ml
              end in
  let finished := run (fuel + extra) (snd (finishTransaction transaction res s0)) in
  let flushed := run (fuel_flush (flush 2000) mm mp mi ml + extra)
                     (snd (flushQueue s0)) in
  idle __DEBUG_BUILD__ finished = true
  /\ List.filter is_flush_or_log (trace finished)
     = List.filter is_flush_or_log tr
  /\ idle __DEBUG_BUILD__ flushed = true
  /\ List.filter is_tracing (trace flushed) = List.filter is_tracing tr.
Proof.
  cbv zeta. split; [| split; [| split]].
  - destruct transaction as [t|]; unfold env_state.
    + rewrite finishTransaction_present. cbn [snd].
      by rewrite run_after_finishTransaction.
    + rewrite finishTransaction_absent. cbn [snd].
      match goal with |- context [mkLoop ?T ?P _ _ _ _] =>
        pose proof (run_env T P mm mp mi ml extra) as H end.
      unfold env_state in H. by rewrite H.
  - destruct transaction as [t|]; unfold env_state.
    + rewrite finishTransaction_present. cbn [snd].
      rewrite run_after_finishTransaction. cbn [trace].
      rewrite !List.filter_app, !filter_markers by done. simpl.
      rewrite filter_markers by done. by rewrite ?app_nil_r.
    + rewrite finishTransaction_absent. cbn [snd].
      match goal with |- context [mkLoop ?T ?P _ _ _ _] =>
        pose proof (run_env T P mm mp mi ml extra) as H end.
      unfold env_state in H. rewrite H. cbn [trace].
      rewrite !List.filter_app, !filter_markers by done. simpl.
      by rewrite ?app_nil_r.
  - destruct (flushQueue_run tr ps mm mp mi ml extra) as [_ Hrun].
    cbv zeta in Hrun. by rewrite Hrun.
  - destruct (flushQueue_run tr ps mm mp mi ml extra) as [_ Hrun].
    cbv zeta in Hrun. rewrite Hrun. cbn [trace]. unfold flushQueue_events.
    destruct (flush 2000) as [e | o | o |];
      rewrite !List.filter_app, ?filter_logged, ?filter_flush_completion,
        ?filter_markers by done;
      simpl; by rewrite ?app_nil_r.
Qed.

(** X13.  The calls [flushQueue] makes on the logger and on the flush
    capability come in a fixed order: the line announcing the flush, then
    [flush(2000)], then, once [flush] has thrown or its promise is settled,
    one closing line, about the error if the flush failed and about success
    otherwise (the log lines only in a debug build).  While the promise of
    [flush] is not settled there is no closing line; if it is never settled,
    none is ever logged. *)
Theorem flushQueue_logs_around_flush
    (tr : list Event) (ps : list PState) (mm mp mi ml : list nat)
    (extra : nat) :
  let s1 := snd (flushQueue (env_state tr ps mm mp mi ml)) in
  let s2 := run (fuel_flush (flush 2000) mm mp mi ml + extra) s1 in
  List.filter is_flush_or_log (trace s1)
  = List.filter is_flush_or_log tr
    ++ logged __DEBUG_BUILD__ flushing_msg ++ [EvFlush 2000]
    ++ match flush 2000 with
       | FlushThrows e => logged __DEBUG_BUILD__ (error_msg e)
       | _ => []
       end
  /\ List.filter is_flush_or_log (trace s2)
     = List.filter is_flush_or_log tr
       ++ logged __DEBUG_BUILD__ flushing_msg ++ [EvFlush 2000]
       ++ match flush 2000 with
          | FlushNever => []
          | _ => match flush_failure (flush 2000) with
                 | Some e => logged __DEBUG_BUILD__ (error_msg e)
                 | None => logged __DEBUG_BUILD__ done_msg
                 end
          end
  /\ idle __DEBUG_BUILD__ s2 = true.
Proof.
  assert (Hl : forall args,
    List.filter is_flush_or_log (logged __DEBUG_BUILD__ args)
    = logged __DEBUG_BUILD__ args).
  { intros. unfold logged. by destruct __DEBUG_BUILD__. }
  cbv zeta. split; [| split].
  - unfold env_state. rewrite flushQueue_sync_trace.
    destruct (flush 2000) as [e | o | o |];
      rewrite !List.filter_app, ?Hl; simpl; by rewrite ?app_nil_r.
  - destruct (flushQueue_run tr ps mm mp mi ml extra) as [_ Hrun].
    cbv zeta in Hrun. rewrite Hrun. cbn [trace]. unfold flushQueue_events.
    destruct (flush 2000) as [e | [v | e] | [v | e] |];
      cbn [flush_failure flush_completion];
      rewrite !List.filter_app, ?Hl, ?filter_markers by done;
      simpl; by rewrite ?app_nil_r.
  - destruct (flushQueue_run tr ps mm mp mi ml extra) as [_ Hrun].
    cbv zeta in Hrun. by rewrite Hrun.
Qed.

(** X14.  An exception of the original [end] passes through the replacement
    unchanged, and it does not keep the handle from being completed: the
    status was recorded and [complete()] deferred before the original ran, so
    [finish()] still follows. *)
Theorem throwing_end_still_finishes
    (t : Transaction) (f : nat) (code : Z) (args : list Value) (e : Value)
    (tr : list Event) (ps : list PState) (mm mp mi ml : list nat)
    (extra : nat) :
  native_end f code args = Threw e ->
  let res := autoEndTransactionOnResponseEnd (Some t)
               (mkResponse code (NativeEnd f false)) in
  let called := call_end (end_ res) res args (env_state tr ps mm mp mi ml) in
  let s2 := run (fuel_finish mm mp mi ml + extra) (snd called) in
  fst called = Threw e
  /\ List.filter is_tracing (trace s2)
     = List.filter is_tracing tr ++ [EvSetHttpStatus t code; EvFinish t].
Proof.
  intros Hthrow. cbv zeta. unfold env_state.
  rewrite call_wrapped_native_present. cbn [fst snd].
  rewrite run_after_finishTransaction. cbn [trace].
  split; [exact Hthrow |].
  rewrite !List.filter_app, filter_tracing_finish, !filter_markers by done.
  simpl. by rewrite <- app_assoc.
Qed.

End Properties.

(** X9.  [flushQueue] does not look at what [flush] resolves with.  A flush
    that ran out of its timeout ([false]) and one that sent everything
    ([true]) give the same effects, ending with the log line of success
    (in a debug build); this holds for a promise settled at once and for one
    settled late. *)
Theorem flushQueue_ignores_flush_result
    (__DEBUG_BUILD__ late : bool) (v v' : Value)
    (tr : list Event) (ps : list PState) (mm mp mi ml : list nat)
    (extra : nat) :
  let behaviour x := if late then FlushLater (Fulfilled x)
                     else FlushSettled (Fulfilled x) in
  let final x :=
    run __DEBUG_BUILD__ (fuel_flush (behaviour x) mm mp mi ml + extra)
      (snd (flushQueue __DEBUG_BUILD__ (fun _ => behaviour x)
              (env_state tr ps mm mp mi ml))) in
  effects (trace (final v)) = effects (trace (final v'))
  /\ List.filter is_log (trace (final v))
     = List.filter is_log tr ++ logged __DEBUG_BUILD__ flushing_msg
       ++ logged __DEBUG_BUILD__ done_msg.
Proof.
  assert (Hl : forall args,
             effects (logged __DEBUG_BUILD__ args) = logged __DEBUG_BUILD__ args).
  { intros. unfold logged. by destruct __DEBUG_BUILD__. }
  assert (Hm : forall l, effects (map EvMarker l) = map EvMarker l).
  { induction l; simpl; [done |]. unfold effects in *; simpl. by f_equal. }
  assert (Hrun : forall b,
    trace (run __DEBUG_BUILD__ (fuel_flush b mm mp mi ml + extra)
             (snd (flushQueue __DEBUG_BUILD__ (fun _ => b)
                     (env_state tr ps mm mp mi ml))))
    = tr ++ flushQueue_events __DEBUG_BUILD__ b (length ps) mm mp mi ml).
  { intros b.
    destruct (flushQueue_run __DEBUG_BUILD__ (fun _ => b) tr ps mm mp mi ml extra)
      as [_ H].
    cbv zeta in H. by rewrite H. }
  cbv zeta. destruct late; rewrite !Hrun; unfold flushQueue_events;
    cbn [flush_completion]; split;
    rewrite ?effects_app, ?Hl, ?Hm, ?List.filter_app, ?filter_log_logged,
      ?filter_markers by done;
    simpl; rewrite ?filter_markers by done; by rewrite ?app_nil_r.
Qed.

(** An [end] that throws: the exception comes out of the replacement and the
    handle is finished all the same. *)
Lemma throwing_end_sample :
  let native_end := fun (_ : nat) (_ : Z) (_ : list Value) =>
                      Threw (VString "write after end") in
  let res := autoEndTransactionOnResponseEnd (Some 1%nat)
               (mkResponse 500 (NativeEnd 0%nat false)) in
  let called := call_end native_end (end_ res) res []
                  (env_state [] [] [] [] [] []) in
  let s2 := run true (fuel_finish [] [] [] [] + 0) (snd called) in
  fst called = Threw (VString "write after end")
  /\ List.filter is_tracing (trace s2)
     = List.filter is_tracing []
       ++ [EvSetHttpStatus 1%nat 500; EvFinish 1%nat].
Proof.
  apply (throwing_end_still_finishes true
           (fun _ _ _ => Threw (VString "write after end"))
           1%nat 0%nat 500 [] (VString "write after end") [] [] [] [] [] [] 0).
  reflexivity.
Defined.

(** ** Sample runs *)

(** A marker callback queued with [setImmediate] before the call runs before
    [finish()]; a response with status code 404. *)
Example finishTransaction_marker_first :
  let s0 := env_state [] [] [] [] [7%nat] [] in
  let s1 := snd (finishTransaction (Some 1%nat)
                   (mkResponse 404 (NativeEnd 0%nat false)) s0) in
  trace (run false 3 s1)
  = [EvSetHttpStatus 1%nat 404; EvMarker 7; EvFinish 1%nat;
     EvSettled 1%nat (Fulfilled VUndefined);
     EvSettled 0%nat (Fulfilled VUndefined)].
Proof. reflexivity. Qed.

(** Wrapping twice, with different handles, leaves the first wrapper. *)
Example wrap_twice :
  wrap_many [Some 1%nat; Some 2%nat] (mkResponse 200 (NativeEnd 0%nat false))
  = mkResponse 200 (sentryWrappedEnd (Some 1%nat) (NativeEnd 0%nat false) true).
Proof. reflexivity. Qed.

(** A rejected flush in a debug build and in a production build. *)
Example flushQueue_rejected_debug :
  let flush := fun _ : Z => FlushLater (Rejected (VString "offline")) in
  let s1 := snd (flushQueue true flush (mkLoop [] [] [] [] [] [])) in
  run true 2 s1
  = mkLoop [EvLog flushing_msg; EvFlush 2000;
            EvSettled 1%nat (Rejected (VString "offline"));
            EvLog (error_msg (VString "offline"));
            EvSettled 0%nat (Fulfilled VUndefined)]
           [Settled (Fulfilled VUndefined); Settled (Rejected (VString "offline"))]
           [] [] [] [].
Proof. reflexivity. Qed.

Example flushQueue_rejected_production :
  let flush := fun _ : Z => FlushLater (Rejected (VString "offline")) in
  let s1 := snd (flushQueue false flush (mkLoop [] [] [] [] [] [])) in
  run false 2 s1
  = mkLoop [EvFlush 2000;
            EvSettled 1%nat (Rejected (VString "offline"));
            EvSettled 0%nat (Fulfilled VUndefined)]
           [Settled (Fulfilled VUndefined); Settled (Rejected (VString "offline"))]
           [] [] [] [].
Proof. reflexivity. Qed.

(** C2.  The documentation of [autoEndTransactionOnResponseEnd] has the
    wrapper close the transaction and flush events before it lets the request
    finish.  The code does not: status 200, handle 1, a native [end] that
    returns [undefined], nothing else queued; the original [end] has run
    before [complete()] is called, and no flush is attempted before it (nor
    later: the loop is idle at the end). *)
Lemma sentryWrappedEnd_original_before_complete :
  let native_end := fun (_ : nat) (_ : Z) (_ : list Value) => Returned VUndefined in
  let res := autoEndTransactionOnResponseEnd (Some 1%nat)
               (mkResponse 200 (NativeEnd 0%nat false)) in
  let called := call_end native_end (end_ res) res [] (mkLoop [] [] [] [] [] []) in
  let s2 := run true 2 (snd called) in
  trace (snd called) = [EvSetHttpStatus 1%nat 200; EvOrigEnd 0%nat 200 []]
  /\ trace s2 = [EvSetHttpStatus 1%nat 200; EvOrigEnd 0%nat 200 []; EvFinish 1%nat;
                 EvSettled 1%nat (Fulfilled VUndefined);
                 EvSettled 0%nat (Fulfilled VUndefined)]
  /\ idle true s2 = true
  /\ occurs_before (EvOrigEnd 0%nat 200 []) (EvFinish 1%nat) (trace s2) = true
  /\ ~ (occurs_before (EvFinish 1%nat) (EvOrigEnd 0%nat 200 []) (trace s2) = true
        /\ exists timeout,
             occurs_before (EvFlush timeout) (EvOrigEnd 0%nat 200 []) (trace s2) = true).
Proof.
  cbv zeta. repeat split; try reflexivity.
  intros [H _]. vm_compute in H. discriminate H.
Qed.

(** C4 as stated does not hold.  Status 200, handle 1, no arguments: the
    two calls return the same value, but before it returns the replacement
    has called [setHttpStatus(200)] on the handle, which the original does
    not do. *)
Lemma sentryWrappedEnd_records_status_synchronously :
  let native_end := fun (_ : nat) (_ : Z) (_ : list Value) => Returned VUndefined in
  let s0 := mkLoop [] [] [] [] [] [] in
  let res := mkResponse 200 (NativeEnd 0%nat false) in
  let res' := autoEndTransactionOnResponseEnd (Some 1%nat) res in
  let wrapped := call_end native_end (end_ res') res' [] s0 in
  let original := call_end native_end (end_ res) res [] s0 in
  fst wrapped = fst original
  /\ effects (trace (snd wrapped))
     = [EvSetHttpStatus 1%nat 200; EvOrigEnd 0%nat 200 []]
  /\ effects (trace (snd original)) = [EvOrigEnd 0%nat 200 []]
  /\ effects (trace (snd wrapped)) <> effects (trace (snd original)).
Proof. cbv zeta. repeat split; try reflexivity. vm_compute. discriminate. Qed.

(** C5.  The replacement is documented to close the transaction and to
    flush events.  In the same call as above what it starts contains no
    flush: the loop becomes idle and [flush] was never called. *)
Lemma sentryWrappedEnd_starts_no_flush :
  let native_end := fun (_ : nat) (_ : Z) (_ : list Value) => Returned VUndefined in
  let res := autoEndTransactionOnResponseEnd (Some 1%nat)
               (mkResponse 200 (NativeEnd 0%nat false)) in
  let called := call_end native_end (end_ res) res [] (mkLoop [] [] [] [] [] []) in
  let s2 := run true 2 (snd called) in
  idle true s2 = true
  /\ List.filter is_flush (trace s2) = []
  /\ ~ (exists timeout, In (EvFlush timeout) (trace s2)).
Proof.
  cbv zeta. repeat split; try reflexivity.
  intros [timeout H]. vm_compute in H.
  repeat (destruct H as [H | H]; [discriminate H |]). exact H.
Qed.

(** C7 as stated does not hold.  A flush whose promise is never settled:
    [flushQueue] has no timer of its own, so its promise is pending when it
    returns, the loop has nothing left to run, and the promise is pending
    after any number of further steps. *)
Lemma flushQueue_pending_when_flush_never_settles :
  let flush := fun _ : Z => FlushNever in
  let called := flushQueue true flush (mkLoop [] [] [] [] [] []) in
  idle true (snd called) = true
  /\ trace (snd called) = [EvLog flushing_msg; EvFlush 2000]
  /\ (forall k, promises (run true k (snd called)) !! fst called
                = Some (Pending []))
  /\ ~ (exists k o, promises (run true k (snd called)) !! fst called
                    = Some (Settled o)).
Proof.
  cbv zeta.
  assert (H : forall k,
    promises (run true k
                (snd (flushQueue true (fun _ : Z => FlushNever)
                        (mkLoop [] [] [] [] [] [])))) !! 0%nat
    = Some (Pending [])).
  { intros k. rewrite run_idle by reflexivity. reflexivity. }
  split; [reflexivity |]. split; [reflexivity |]. split; [exact H |].
  intros (k & o & Hk). change (fst (flushQueue true (fun _ : Z => FlushNever)
    (mkLoop [] [] [] [] [] []))) with 0%nat in Hk.
  rewrite H in Hk. discriminate Hk.
Qed.

End ResponseEndSpec.

(** * Properties of [use-ts-3_8.js] *)

Module UseTs38Spec.
Import UseTs38.

Section Configurations.

Context {Number : Type} (number_to_string : Number -> string).

Implicit Types (ms cms : list (string * @Json Number)).
Implicit Types (v co tsConfig : @Json Number).

Notation stringify := (stringify number_to_string).

(** [remove_member] keeps every other member, in order. *)
Lemma remove_member_other_members k ms :
  remove_member k ms = other_members k ms.
Proof.
  induction ms as [|[k' v] ms IH]; simpl; [done |].
  destruct (String.eqb k k'); simpl; by rewrite IH.
Qed.

Lemma delete_property_without co :
  delete_property co "noUncheckedIndexedAccess"
  = without_noUncheckedIndexedAccess co.
Proof. destruct co; simpl; try done. by rewrite remove_member_other_members. Qed.


Lemma lookup_member_middle k v ms1 ms2 :
  lookup_member k ms1 = None ->
  lookup_member k (ms1 ++ (k, v) :: ms2) = Some v.
Proof.
  induction ms1 as [|[k' w] ms1 IH]; simpl.
  - by rewrite String.eqb_refl.
  - destruct (String.eqb k k'); [done | apply IH].
Qed.

Lemma update_member_middle k v v' ms1 ms2 :
  lookup_member k ms1 = None ->
  update_member k v' (ms1 ++ (k, v) :: ms2) = ms1 ++ (k, v') :: ms2.
Proof.
  induction ms1 as [|[k' w] ms1 IH]; simpl.
  - by rewrite String.eqb_refl.
  - destruct (String.eqb k k'); [done |]. intros H. by rewrite IH.
Qed.


Section Script.

Variable baseTscConfigPath : string.
Variable execSync : string -> gmap string string -> option (gmap string string).
Variable require : gmap string string -> string -> option (@Json Number).

Notation use_ts_3_8 :=
  (use_ts_3_8 number_to_string baseTscConfigPath execSync require).

(** When the configuration is an object whose [compilerOptions] is neither
    missing nor [null], the script writes the file. *)
Lemma use_ts_3_8_writes w fs ms1 co ms2 :
  execSync yarn_add (files w) = Some fs ->
  require fs baseTscConfigPath
  = Some (JObject (ms1 ++ ("compilerOptions", co) :: ms2)) ->
  lookup_member "compilerOptions" ms1 = None ->
  co <> JNull ->
  exists out,
    use_ts_3_8 w
    = Some (mkWorld
              (<[baseTscConfigPath :=
                   stringify (JObject (ms1 ++ ("compilerOptions",
                                 without_noUncheckedIndexedAccess co) :: ms2))]> fs)
              out).
Proof.
  intros Hexec Hreq Hnone Hco. unfold UseTs38.use_ts_3_8.
  rewrite Hexec, Hreq. unfold delete_noUncheckedIndexedAccess.
  rewrite lookup_member_middle by done.
  rewrite update_member_middle, delete_property_without by done.
  destruct co; try (eexists; reflexivity). done.
Qed.


(** ** Further properties of the script *)



Lemma lookup_update_member k v v' ms :
  lookup_member k ms = Some v ->
  lookup_member k (update_member k v' ms) = Some v'.
Proof.
  induction ms as [|[k' w] ms IH]; simpl; [done |].
  destruct (String.eqb k k') eqn:E; simpl; rewrite E; [done | apply IH].
Qed.

Lemma update_member_twice k v v' ms :
  update_member k v (update_member k v' ms) = update_member k v ms.
Proof.
  induction ms as [|[k' w] ms IH]; simpl; [done |].
  destruct (String.eqb k k') eqn:E; simpl; rewrite E; [done | by rewrite IH].
Qed.

Lemma other_members_twice k ms :
  other_members k (other_members k ms) = other_members k ms.
Proof.
  induction ms as [|[k' v] ms IH]; simpl; [done |].
  destruct (String.eqb k k') eqn:E; simpl; [done |]. rewrite E. simpl.
  by rewrite IH.
Qed.

Lemma without_twice co :
  without_noUncheckedIndexedAccess (without_noUncheckedIndexedAccess co)
  = without_noUncheckedIndexedAccess co.
Proof. destruct co; simpl; try done. by rewrite other_members_twice. Qed.

Lemma without_not_null co :
  co <> JNull -> without_noUncheckedIndexedAccess co <> JNull.
Proof. by destruct co. Qed.

(** What the [delete] statement makes of a configuration it can work on. *)
Lemma delete_noUncheckedIndexedAccess_Some ms co :
  lookup_member "compilerOptions" ms = Some co ->
  co <> JNull ->
  delete_noUncheckedIndexedAccess (JObject ms)
  = Some (JObject (update_member "compilerOptions"
                     (without_noUncheckedIndexedAccess co) ms)).
Proof.
  intros H Hco. unfold delete_noUncheckedIndexedAccess. rewrite H.
  rewrite delete_property_without. by destruct co.
Qed.

Lemma delete_noUncheckedIndexedAccess_inv tsConfig tsConfig' :
  delete_noUncheckedIndexedAccess tsConfig = Some tsConfig' ->
  exists ms co,
    tsConfig = JObject ms
    /\ lookup_member "compilerOptions" ms = Some co
    /\ co <> JNull
    /\ tsConfig'
       = JObject (update_member "compilerOptions"
                    (without_noUncheckedIndexedAccess co) ms).
Proof.
  unfold delete_noUncheckedIndexedAccess.
  destruct tsConfig as [| | | | |ms]; try done.
  destruct (lookup_member "compilerOptions" ms) as [co|] eqn:Hco; [| done].
  rewrite delete_property_without.
  intros H. exists ms, co.
  destruct co; try done; inversion H; by repeat split.
Qed.

(** X10.  A configuration without usable [compilerOptions] makes the script
    die: when the loaded value is not an object, or has no [compilerOptions]
    member, or that member is [null], the [delete] statement throws and
    [writeFileSync] is never reached, although there would be nothing to
    remove. *)
Theorem use_ts_3_8_dies_without_compilerOptions
    (w : World) (fs : gmap string string) (tsConfig : Json) :
  execSync yarn_add (files w) = Some fs ->
  require fs baseTscConfigPath = Some tsConfig ->
  lacks_compilerOptions tsConfig ->
  use_ts_3_8 w = None.
Proof.
  intros Hexec Hreq Hlacks. unfold UseTs38.use_ts_3_8.
  rewrite Hexec, Hreq. unfold delete_noUncheckedIndexedAccess.
  destruct tsConfig as [| | | | |ms]; try done.
  simpl in Hlacks. by destruct Hlacks as [-> | ->].
Qed.


(** X12.  The [delete] statement is idempotent on the configuration: applied
    to its own result it succeeds again (the result still has its
    [compilerOptions]) and changes nothing. *)
Theorem delete_noUncheckedIndexedAccess_idempotent
    (tsConfig tsConfig' : @Json Number) :
  delete_noUncheckedIndexedAccess tsConfig = Some tsConfig' ->
  delete_noUncheckedIndexedAccess tsConfig' = Some tsConfig'.
Proof.
  intros H.
  destruct (delete_noUncheckedIndexedAccess_inv _ _ H)
    as (ms & co & -> & Hco & Hnull & ->).
  rewrite (delete_noUncheckedIndexedAccess_Some _
             (without_noUncheckedIndexedAccess co)).
  - by rewrite without_twice, update_member_twice.
  - by apply (lookup_update_member _ co).
  - by apply without_not_null.
Qed.

End Script.

End Configurations.


(** The script on a configuration without [compilerOptions]. *)
Lemma use_ts_3_8_bare_config_dies :
  use_ts_3_8 sample_number_to_string sample_path sample_execSync bare_require sample_world = None.
Proof.
  apply (use_ts_3_8_dies_without_compilerOptions
           sample_number_to_string sample_path sample_execSync bare_require sample_world ∅ bare_config).
  - reflexivity.
  - reflexivity.
  - simpl. left. reflexivity.
Defined.


(** The [delete] statement on the sample configuration and on its result. *)
Lemma delete_noUncheckedIndexedAccess_sample_twice :
  delete_noUncheckedIndexedAccess sample_config_after = Some sample_config_after.
Proof.
  apply (delete_noUncheckedIndexedAccess_idempotent sample_config).
  reflexivity.
Defined.

End UseTs38Spec.
